(** * SunSpec model viewer: catalog indexing, tree construction and search

    A shallow embedding of the TypeScript sources
    - [services/githubService.ts] ([GitHubService]: [getModelList],
      [extractModelInfo], [categorizeModels], [getAllModelsWithMetadata]),
    - [components/TreeView.tsx] ([createTreeNode], [buildTree], [filterNode],
      [toggleNode], [renderNode]) and [components/ModelSummary.tsx]
      ([countPoints], [countGroups], the totals),
    - [components/ModelList.tsx] (the search effect, [loadModels],
      [toggleCategory]) and [components/FileUpload.tsx] ([handleDrop],
      [handleFileSelect]),
    - [App.tsx] ([handleModelSelect], [handleReset]),
    followed by the properties proved about them.

    Modelling conventions.
    - JavaScript strings are modelled by [string] (sequences of 8-bit
      characters); [toLowerCase] is the ASCII case mapping, so the results
      speak about ASCII text.
    - JavaScript numbers that hold identifiers and array indices are modelled
      by [Z] and [nat]; they are assumed to stay in the range where IEEE
      doubles are exact integers.
    - An optional property ([label?: string]) is an [option]; a property that
      is read under a truthiness test is modelled with that test written out.
    - [Set<string>] is a [gset string]; a JavaScript object used as an ordered
      dictionary is an association list in insertion order. *)

From Stdlib Require Import ZArith Ascii String DecimalString.
From Stdlib Require Import DecimalNat DecimalZ.
From stdpp Require Import base list strings gmap sorting.

Local Open Scope string_scope.
Local Open Scope list_scope.
Set Warnings "-register-all".
#[local] Arguments String.append !_ _ / : simpl nomatch.

(** ** JavaScript string primitives used by the sources *)

Module JS.

(** [c] is one of the characters 0..9 (the class [\d] of a JavaScript
    regular expression without the unicode flag). *)
Definition isDigit (c : ascii) : bool :=
  let n := nat_of_ascii c in (48 <=? n)%nat && (n <=? 57)%nat.

Definition digitValue (c : ascii) : Z := Z.of_nat (nat_of_ascii c) - 48.

Fixpoint allDigits (s : string) : bool :=
  match s with
  | "" => true
  | String c s' => isDigit c && allDigits s'
  end.

(** ASCII upper-case letters are mapped to lower case, everything else is
    kept. *)
Definition lowerChar (c : ascii) : ascii :=
  let n := nat_of_ascii c in
  if (65 <=? n)%nat && (n <=? 90)%nat then ascii_of_nat (n + 32) else c.

(** [String.prototype.toLowerCase] *)
Fixpoint toLowerCase (s : string) : string :=
  match s with
  | "" => ""
  | String c s' => String (lowerChar c) (toLowerCase s')
  end.

(** [String.prototype.startsWith] *)
Fixpoint startsWith (s p : string) {struct p} : bool :=
  match p, s with
  | "", _ => true
  | String _ _, "" => false
  | String a p', String b s' => if ascii_dec a b then startsWith s' p' else false
  end.

(** [String.prototype.endsWith] *)
Definition endsWith (s p : string) : bool :=
  startsWith (String.rev s) (String.rev p).

(** [String.prototype.includes]: [p] occurs somewhere in [s]. *)
Fixpoint includes (s p : string) : bool :=
  startsWith s p ||
  match s with
  | "" => false
  | String _ s' => includes s' p
  end.

(** Drop the first [n] characters. *)
Fixpoint drop (n : nat) (s : string) : string :=
  match n, s with
  | O, _ => s
  | S _, "" => ""
  | S n', String _ s' => drop n' s'
  end.

(** [String.prototype.replace] with a string pattern: only the first
    (leftmost) occurrence of [pat] is replaced. *)
Fixpoint replace (s pat rep : string) : string :=
  if startsWith s pat then rep +:+ drop (String.length pat) s
  else match s with
       | "" => ""
       | String c s' => String c (replace s' pat rep)
       end.

(** Conversion of an array index to a string inside a template literal. *)
Definition ofNat (n : nat) : string := NilZero.string_of_uint (Nat.to_uint n).

(** Conversion of an integral number to a string inside a template
    literal: every digit is written, as JavaScript does below 1e21. *)
Definition ofZ (z : Z) : string := NilZero.string_of_int (Z.to_int z).

(** [parseInt] on a string of decimal digits: the exact value, which is
    what [parseInt] returns for values up to 2^53 (above, it rounds to the
    nearest double). *)
Definition parseDigits (s : string) : Z :=
  fold_left (fun acc c => 10 * acc + digitValue c)%Z (list_ascii_of_string s) 0%Z.

(** Truthiness of an optional string: [undefined] and [''] are falsy. *)
Definition truthyStr (o : option string) : bool :=
  match o with
  | Some s => negb (String.eqb s "")
  | None => false
  end.

(** [a || b] on optional strings. *)
Definition orStr (a b : option string) : option string :=
  if truthyStr a then a else b.

(** [Array.prototype.sort(compare)]. The standard requires the sort to be
    stable; for a comparator that is a consistent ordering the result is
    therefore determined, and is computed here by insertion from the right:
    an element goes in front of the first element that does not compare
    smaller. *)
Fixpoint insertSorted {A} (compare : A → A → Z) (x : A) (l : list A) : list A :=
  match l with
  | [] => [x]
  | y :: l' =>
      if (compare x y <=? 0)%Z then x :: y :: l'
      else y :: insertSorted compare x l'
  end.

Definition sort {A} (compare : A → A → Z) (l : list A) : list A :=
  foldr (insertSorted compare) [] l.

End JS.

(** ** Data model *)

(** The interfaces of [types.ts] (in the sources they follow
    [components/FileUpload.tsx]): [Point], [Group], [SunSpecModel],
    [ModelInfo] and [TreeNode]. The records keep the fields that the
    embedded code reads; the optional properties ([point.label],
    [point.desc], [group.points], [group.groups], [label], [desc]) are
    options, and so is [model.group], which the interface requires but the
    code tests for presence before it is used. *)
Record Point := mkPoint {
  p_name : string;
  p_type : string;
  p_label : option string;
  p_desc : option string;
  p_access : option string;
  p_mandatory : option string;
  p_units : option string
}.

Inductive Group := mkGroup {
  g_name : string;
  g_type : string;
  g_label : option string;
  g_desc : option string;
  g_points : option (list Point);
  g_groups : option (list Group)
}.

Record SunSpecModel := mkModel {
  m_id : Z;
  m_group : option Group;
  m_label : option string;
  m_desc : option string
}.

(** Catalog entry: the result of [extractModelInfo] extended with the file
    name it was read from. *)
Record ModelInfo := mkModelInfo {
  mi_id : Z;
  mi_name : string;
  mi_label : option string;
  mi_desc : option string;
  mi_filename : string
}.

Inductive NodeType := TModel | TGroup | TPoint.

(** The [data] field of a tree node: [SunSpecModel | Group | Point]. *)
Inductive NodeData :=
| DModel (m : SunSpecModel)
| DGroup (g : Group)
| DPoint (p : Point).

Inductive TreeNode := mkTreeNode {
  node_id : string;
  node_name : string;
  node_label : option string;
  node_type : NodeType;
  isExpanded : bool;
  children : list TreeNode;
  node_data : NodeData;
  node_level : nat
}.

Global Instance NodeType_eq_dec : EqDecision NodeType.
Proof. solve_decision. Defined.

(** ** components/TreeView.tsx *)

Module TreeView.

Section Build.
(** The React state [expandedNodes]. *)
Variable expandedNodes : gset string.

(** The body of [createTreeNode] is given case by case on [type], so that
    the recursion is structural on the group.

    [createTreeNode(id, name, label, 'point', point, level)]: neither branch
    of the [if] on [type] is taken, [children] stays empty. *)
Definition createPointNode (id name : string) (label : option string)
    (point : Point) (level : nat) : TreeNode :=
  {| node_id := id; node_name := name; node_label := label;
     node_type := TPoint;
     isExpanded := bool_decide (id ∈ expandedNodes);
     children := [];
     node_data := DPoint point; node_level := level |}.

(** [createTreeNode(id, name, label, 'group', group, level)]: the points
    are pushed first, then the nested groups, each [forEach] passing the
    array index. *)
Fixpoint createGroupNode (id name : string) (label : option string)
    (groupData : Group) (level : nat) {struct groupData} : TreeNode :=
  {| node_id := id; node_name := name; node_label := label;
     node_type := TGroup;
     isExpanded := bool_decide (id ∈ expandedNodes);
     children :=
       match groupData with
       | mkGroup _ _ _ _ points groups =>
         match points with
         | Some ps =>
             imap (fun index point =>
                     createPointNode (id +:+ "_point_" +:+ JS.ofNat index)
                       (p_name point) (p_label point) point (level + 1)) ps
         | None => []
         end ++
         match groups with
         | Some gs =>
             (fix forEach (index : nat) (rest : list Group) : list TreeNode :=
                match rest with
                | [] => []
                | group :: rest' =>
                    createGroupNode (id +:+ "_group_" +:+ JS.ofNat index)
                      (g_name group) (g_label group) group (level + 1)
                    :: forEach (S index) rest'
                end) 0%nat gs
         | None => []
         end
       end;
     node_data := DGroup groupData; node_level := level |}.

(** [createTreeNode(id, name, label, 'model', model, level)]. *)
Definition createModelNode (id name : string) (label : option string)
    (modelData : SunSpecModel) (level : nat) : TreeNode :=
  {| node_id := id; node_name := name; node_label := label;
     node_type := TModel;
     isExpanded := bool_decide (id ∈ expandedNodes);
     children :=
       match m_group modelData with
       | Some group =>
           [createGroupNode (id +:+ "_group") (g_name group) (g_label group)
              group (level + 1)]
       | None => []
       end;
     node_data := DModel modelData; node_level := level |}.

(** [createTreeNode]: the three cases of the [if] on [type]. The casts of
    [data] are unchecked: when [data] is not of the kind that [type]
    announces, the properties tested by the branch ([group], [points],
    [groups]) are absent from it and no child is pushed. *)
Definition createTreeNode (id name : string) (label : option string)
    (type : NodeType) (data : NodeData) (level : nat) : TreeNode :=
  match type, data with
  | TModel, DModel modelData => createModelNode id name label modelData level
  | TGroup, DGroup groupData => createGroupNode id name label groupData level
  | TPoint, DPoint point => createPointNode id name label point level
  | _, _ =>
      {| node_id := id; node_name := name; node_label := label;
         node_type := type;
         isExpanded := bool_decide (id ∈ expandedNodes);
         children := [];
         node_data := data; node_level := level |}
  end.

(** The memoised value [buildTree]; [level] takes its default [0]. *)
Definition buildTree (model : SunSpecModel) : TreeNode :=
  createTreeNode "root" ("Model " +:+ JS.ofZ (m_id model)) (m_label model)
    TModel (DModel model) 0.
End Build.

(** [(node.data as Point).desc]: the cast is unchecked, the property
    [desc] is read from whatever object [data] holds. *)
Definition dataDesc (d : NodeData) : option string :=
  match d with
  | DModel m => m_desc m
  | DGroup g => g_desc g
  | DPoint p => p_desc p
  end.

(** [s?.toLowerCase().includes(term.toLowerCase())], falsy when [s] is
    absent. *)
Definition optIncludes (s : option string) (searchTerm : string) : bool :=
  match s with
  | Some l => JS.includes (JS.toLowerCase l) (JS.toLowerCase searchTerm)
  | None => false
  end.

(** The expression bound to [matchesSearch] in [filterNode]. *)
Definition matchesSearch (searchTerm : string) (node : TreeNode) : bool :=
  JS.includes (JS.toLowerCase (node_name node)) (JS.toLowerCase searchTerm)
  || optIncludes (node_label node) searchTerm
  || (bool_decide (node_type node = TPoint)
      && optIncludes (dataDesc (node_data node)) searchTerm).

(** [filterNode]; [None] is [null]. [children.map(filterNode)
    .filter(Boolean)] is [omap]. *)
Fixpoint filterNode (searchTerm : string) (node : TreeNode) : option TreeNode :=
  let filteredChildren := omap (filterNode searchTerm) (children node) in
  if matchesSearch searchTerm node || (0 <? length filteredChildren)%nat then
    Some {| node_id := node_id node; node_name := node_name node;
            node_label := node_label node; node_type := node_type node;
            isExpanded := true;
            children := filteredChildren;
            node_data := node_data node; node_level := node_level node |}
  else None.

(** The memoised value [filteredTree]: an empty search term is falsy and
    gives the built tree back. *)
Definition filteredTree (tree : TreeNode) (searchTerm : string) : option TreeNode :=
  if String.eqb searchTerm "" then Some tree else filterNode searchTerm tree.

(** [toggleNode]: the state update applied to [expandedNodes]. *)
Definition toggleNode (nodeId : string) (prev : gset string) : gset string :=
  if bool_decide (nodeId ∈ prev) then prev ∖ {[nodeId]} else prev ∪ {[nodeId]}.

End TreeView.

(** ** components/ModelSummary.tsx *)

Module ModelSummary.

Fixpoint countPoints (group : Group) : nat :=
  match group with
  | mkGroup _ _ _ _ points groups =>
      let count := 0%nat in
      let count := match points with
                   | Some ps => (count + length ps)%nat
                   | None => count
                   end in
      match groups with
      | Some gs => fold_left (fun count subGroup => (count + countPoints subGroup)%nat) gs count
      | None => count
      end
  end.

Fixpoint countGroups (group : Group) : nat :=
  match group with
  | mkGroup _ _ _ _ _ groups =>
      let count := 1%nat in
      match groups with
      | Some gs => fold_left (fun count subGroup => (count + countGroups subGroup)%nat) gs count
      | None => count
      end
  end.

End ModelSummary.

(** ** services/githubService.ts *)

Module GitHubService.

Record GitHubFile := mkGitHubFile {
  gf_name : string;
  gf_path : string;
  gf_download_url : string
}.

(** The value of [await response.json()], typed [any] in the source. Only
    the properties that the code reads are kept. [JOther] stands for a
    number, string, boolean or array: reading [id], [group], [label] or
    [desc] from it gives [undefined]. Reading a property of [null] throws a
    [TypeError]. *)
Inductive ModelData :=
| JNull
| JOther
| JObject (id : option Z) (group : option Group) (label desc : option string).

Definition propId (d : ModelData) : option Z :=
  match d with JObject id _ _ _ => id | _ => None end.
Definition propGroup (d : ModelData) : option Group :=
  match d with JObject _ group _ _ => group | _ => None end.
Definition propLabel (d : ModelData) : option string :=
  match d with JObject _ _ label _ => label | _ => None end.
Definition propDesc (d : ModelData) : option string :=
  match d with JObject _ _ _ desc => desc | _ => None end.

(** [getModelList] after a successful listing request: the entries whose
    name ends in [.json]. *)
Definition getModelList (files : list GitHubFile) : list GitHubFile :=
  filter (fun file => JS.endsWith (gf_name file) ".json" = true) files.

(** The regular expression [/model_(\d+)\.json/].
    [matchDigitsJson s] matches [(\d+)\.json] at the start of [s] and
    returns the captured digits: the quantifier is greedy, so the longer
    match is tried first and the engine backtracks to a shorter one when
    [\.json] does not follow. *)
Fixpoint matchDigitsJson (s : string) : option string :=
  match s with
  | "" => None
  | String c s' =>
      if JS.isDigit c then
        match matchDigitsJson s' with
        | Some ds => Some (String c ds)
        | None => if JS.startsWith s' ".json" then Some (String c "") else None
        end
      else None
  end.

(** A match that starts at the first character of [s]. *)
Definition matchHere (s : string) : option string :=
  if JS.startsWith s "model_" then matchDigitsJson (JS.drop 6 s) else None.

(** [filename.match(/model_(\d+)\.json/)]: the pattern is not anchored, the
    leftmost starting position that matches wins; the result is capture
    group 1 ([idMatch[1]]), [None] is [null]. *)
Fixpoint regexMatch (s : string) : option string :=
  match matchHere s with
  | Some ds => Some ds
  | None => match s with
            | "" => None
            | String _ s' => regexMatch s'
            end
  end.

(** The object returned by [extractModelInfo]. *)
Record Info := mkInfo {
  i_id : Z;
  i_name : string;
  i_label : option string;
  i_desc : option string
}.

(** [modelData.id || 0] *)
Definition idOrZero (id : option Z) : Z :=
  match id with
  | Some z => if (z =? 0)%Z then 0%Z else z
  | None => 0%Z
  end.

(** [extractModelInfo]; [None] is the [TypeError] thrown when a property of
    [null] is read ([modelData.label] is always evaluated). *)
Definition extractModelInfo (filename : string) (modelData : ModelData) : option Info :=
  match modelData with
  | JNull => None
  | _ =>
      let idMatch := regexMatch filename in
      let id := match idMatch with
                | Some digits => JS.parseDigits digits
                | None => idOrZero (propId modelData)
                end in
      Some {| i_id := id;
              i_name := JS.replace filename ".json" "";
              i_label := JS.orStr (propLabel modelData)
                           (propGroup modelData ≫= g_label);
              i_desc := JS.orStr (propDesc modelData)
                          (propGroup modelData ≫= g_desc) |}
  end.

(** The comparator [(a, b) => a.id - b.id]. *)
Definition byId (a b : ModelInfo) : Z := (mi_id a - mi_id b)%Z.

(** The body of one mapped promise: fetch, extract, add [filename]; [None]
    is the [null] returned by the [catch] branch. [getModel name] is the
    outcome of the request for [name], [None] when it throws. *)
Definition loadOne (getModel : string → option ModelData) (file : GitHubFile)
    : option ModelInfo :=
  match getModel (gf_name file) with
  | Some modelData =>
      match extractModelInfo (gf_name file) modelData with
      | Some info =>
          Some {| mi_id := i_id info; mi_name := i_name info;
                  mi_label := i_label info; mi_desc := i_desc info;
                  mi_filename := gf_name file |}
      | None => None
      end
  | None => None
  end.

(** [getAllModelsWithMetadata]. [listing] is the outcome of the listing
    request ([None]: [getModelList] throws and so does this function).
    [Promise.all] gives the results in the order of [files], whatever the
    order in which the requests complete. *)
Definition getAllModelsWithMetadata (listing : option (list GitHubFile))
    (getModel : string → option ModelData) : option (list ModelInfo) :=
  match listing with
  | None => None
  | Some response =>
      let files := getModelList response in
      let results := loadOne getModel <$> files in
      let validModels := omap (fun r => r) results in
      Some (JS.sort byId validModels)
  end.

Record Category := mkCategory {
  range : string;
  description : string;
  models : list ModelInfo
}.

(** The object literal [categories]; its property order is the order of
    the literal (none of the keys is an array index). *)
Definition emptyCategories : list (string * Category) :=
  [ ("1-99", mkCategory "1-99" "Common & Basic Models" []);
    ("100-199", mkCategory "100-199" "Inverter Models" []);
    ("200-299", mkCategory "200-299" "Meter Models" []);
    ("300-399", mkCategory "300-399" "Environmental Models" []);
    ("400-499", mkCategory "400-499" "String Combiner Models" []);
    ("500-599", mkCategory "500-599" "Panel Models" []);
    ("600-699", mkCategory "600-699" "Tracker Models" []);
    ("700-799", mkCategory "700-799" "DER Control Models" []);
    ("800-899", mkCategory "800-899" "Storage Models" []);
    ("900+", mkCategory "900+" "Extended & Custom Models" []) ].

(** The chain of comparisons in the [forEach] callback. *)
Definition categoryKey (id : Z) : string :=
  if (id <? 100)%Z then "1-99"
  else if (id <? 200)%Z then "100-199"
  else if (id <? 300)%Z then "200-299"
  else if (id <? 400)%Z then "300-399"
  else if (id <? 500)%Z then "400-499"
  else if (id <? 600)%Z then "500-599"
  else if (id <? 700)%Z then "600-699"
  else if (id <? 800)%Z then "700-799"
  else if (id <? 900)%Z then "800-899"
  else "900+".

(** [categories[key].models.push(model)] *)
Definition push (key : string) (model : ModelInfo)
    (categories : list (string * Category)) : list (string * Category) :=
  (fun kc =>
     if String.eqb kc.1 key
     then (kc.1, mkCategory (range kc.2) (description kc.2) (models kc.2 ++ [model]))
     else kc) <$> categories.

(** [categorizeModels] *)
Definition categorizeModels (ms : list ModelInfo) : list (string * Category) :=
  let categories :=
    fold_left (fun categories model => push (categoryKey (mi_id model)) model categories)
      ms emptyCategories in
  filter (fun kc => (0 < length (models kc.2))%nat) categories.

End GitHubService.

(** ** App.tsx *)

Module App.
Import GitHubService.

(** The four [useState] cells of the component. *)
Record AppState := mkAppState {
  model : option SunSpecModel;
  selectedModelInfo : option ModelInfo;
  error : string;
  isLoading : bool
}.

(** What can be thrown inside the [try] block of [handleModelSelect]. *)
Inductive Thrown :=
| TransportFailure (filename : string)   (* thrown by [getModel] *)
| ValidationFailure                      (* thrown by the validation [if] *)
| NullAccess.                            (* [TypeError]: [modelData] is [null] *)

Definition quoted (s : string) : string :=
  String (ascii_of_nat 34) (s +:+ String (ascii_of_nat 34) "").

(** [err.message]; the text of the [TypeError] is the engine's (here V8's). *)
Definition message (e : Thrown) : string :=
  match e with
  | TransportFailure filename => "Failed to load model: " +:+ filename
  | ValidationFailure =>
      "Invalid SunSpec model format. Missing required " +:+ quoted "id"
      +:+ " or " +:+ quoted "group" +:+ " properties."
  | NullAccess => "Cannot read properties of null (reading 'id')"
  end.

(** The validation [if (!modelData.id || !modelData.group) throw ...],
    followed by the cast [modelData as SunSpecModel]. A number is falsy
    when it is [0]. *)
Definition validate (modelData : ModelData) : Thrown + SunSpecModel :=
  match modelData with
  | JNull => inl NullAccess
  | JOther => inl ValidationFailure
  | JObject id group label desc =>
      match id, group with
      | Some i, Some g =>
          if (i =? 0)%Z then inl ValidationFailure
          else inr (mkModel i (Some g) label desc)
      | _, _ => inl ValidationFailure
      end
  end.

(** State setters called by the handlers, and the point where an exception
    is raised. *)
Inductive Event :=
| SetIsLoading (b : bool)
| SetError (s : string)
| SetSelectedModelInfo (o : option ModelInfo)
| SetModel (m : option SunSpecModel)
| Raise (e : Thrown).

(** The outcome of the body of the [try] block up to [setModel]. *)
Definition fetchAndValidate (getModel : string → option ModelData)
    (modelInfo : ModelInfo) : Thrown + SunSpecModel :=
  match getModel (mi_filename modelInfo) with
  | None => inl (TransportFailure (mi_filename modelInfo))
  | Some modelData => validate modelData
  end.

(** [handleModelSelect] as the sequence of its effects. *)
Definition handleModelSelect (getModel : string → option ModelData)
    (modelInfo : ModelInfo) : list Event :=
  [SetIsLoading true; SetError ""; SetSelectedModelInfo (Some modelInfo)]
  ++ match fetchAndValidate getModel modelInfo with
     | inr m => [SetModel (Some m)]
     | inl err => [Raise err; SetError (message err); SetSelectedModelInfo None]
     end
  ++ [SetIsLoading false].

Definition handleReset : list Event :=
  [SetModel None; SetSelectedModelInfo None; SetError ""].

Definition step (st : AppState) (e : Event) : AppState :=
  match e with
  | SetIsLoading b => mkAppState (model st) (selectedModelInfo st) (error st) b
  | SetError s => mkAppState (model st) (selectedModelInfo st) s (isLoading st)
  | SetSelectedModelInfo o => mkAppState (model st) o (error st) (isLoading st)
  | SetModel m => mkAppState m (selectedModelInfo st) (error st) (isLoading st)
  | Raise _ => st
  end.

Definition run (st : AppState) (events : list Event) : AppState :=
  fold_left step events st.



(** The exception raised by a run, if any. *)
Fixpoint raised (events : list Event) : option Thrown :=
  match events with
  | [] => None
  | Raise e :: _ => Some e
  | _ :: rest => raised rest
  end.

End App.

(** ** Notions used to state the properties *)

(** An absent array property behaves as an empty array: the code skips the
    [forEach] when the property is falsy. *)
Definition orEmpty {A} (o : option (list A)) : list A := default [] o.

(** All nodes of a tree, a node before its descendants, children from left
    to right. *)
Fixpoint treeNodes (t : TreeNode) : list TreeNode :=
  t :: mjoin (treeNodes <$> children t).

(** [term] occurs in [s] when letter case is ignored: some substring [mid]
    of [s] equals [term] up to case. *)
Definition occursIgnoringCase (term s : string) : Prop :=
  ∃ pre mid post, s = pre +:+ mid +:+ post ∧ JS.toLowerCase mid = JS.toLowerCase term.

(** The match of a search term against a node in the words of the
    specification: against the name, or the label when there is one, or,
    for a node of kind point only, the [desc] of the entity it was built
    from. *)
Definition selfMatches (term : string) (node : TreeNode) : Prop :=
  occursIgnoringCase term (node_name node)
  ∨ (∃ l, node_label node = Some l ∧ occursIgnoringCase term l)
  ∨ (node_type node = TPoint
     ∧ ∃ d, TreeView.dataDesc (node_data node) = Some d ∧ occursIgnoringCase term d).

(** The children that survive the filter: the non-absent results of the
    recursive calls, in the order of the children. *)
Definition keptChildren (term : string) (node : TreeNode) : list TreeNode :=
  omap (fun child => TreeView.filteredTree child term) (children node).

(** The retained node in the words of the specification: a copy of the node
    with the kept children, marked expanded when there are kept children. *)
Definition copyAsSpecified (node : TreeNode) (kept : list TreeNode) : TreeNode :=
  {| node_id := node_id node; node_name := node_name node;
     node_label := node_label node; node_type := node_type node;
     isExpanded := match kept with [] => isExpanded node | _ :: _ => true end;
     children := kept;
     node_data := node_data node; node_level := node_level node |}.

(** The retained node as the code builds it: expanded in every case. *)
Definition copyExpanded (node : TreeNode) (kept : list TreeNode) : TreeNode :=
  {| node_id := node_id node; node_name := node_name node;
     node_label := node_label node; node_type := node_type node;
     isExpanded := true;
     children := kept;
     node_data := node_data node; node_level := node_level node |}.

(** The filter as the specification words it. *)
Definition filterAsSpecified : Prop :=
  ∀ (node : TreeNode) (term : string),
    (term = "" → TreeView.filteredTree node term = Some node)
    ∧ (term ≠ "" →
       (TreeView.filteredTree node term = None
        ↔ ¬ selfMatches term node ∧ keptChildren term node = [])
       ∧ (¬ (¬ selfMatches term node ∧ keptChildren term node = []) →
          TreeView.filteredTree node term
          = Some (copyAsSpecified node (keptChildren term node)))).

(** Two nodes carry the same identity: everything but [children] and
    [isExpanded] agrees. *)
Definition sameIdentity (a b : TreeNode) : Prop :=
  node_id a = node_id b ∧ node_name a = node_name b
  ∧ node_label a = node_label b ∧ node_type a = node_type b
  ∧ node_data a = node_data b ∧ node_level a = node_level b.

(** Two trees have the same shape and agree on every field of every node
    except possibly [isExpanded]. *)
Inductive sameUpToExpanded : TreeNode → TreeNode → Prop :=
| same_node id name label ty e1 e2 ch1 ch2 d lvl :
    Forall2 sameUpToExpanded ch1 ch2 →
    sameUpToExpanded (mkTreeNode id name label ty e1 ch1 d lvl)
                     (mkTreeNode id name label ty e2 ch2 d lvl).

(** [prunedFrom r n]: [r] is [n] with some subtrees removed; each node of
    [r] keeps the identity of the node of [n] it comes from, the children of
    [r] come from a subsequence of the children of [n]. *)
Inductive prunedFrom : TreeNode → TreeNode → Prop :=
| pruned_node id name label ty e e' ch ch' kept d lvl :
    sublist kept ch' →
    Forall2 prunedFrom ch kept →
    prunedFrom (mkTreeNode id name label ty e ch d lvl)
               (mkTreeNode id name label ty e' ch' d lvl).

(** One step of a structural path below the root group of a model: the
    [index]-th point or the [index]-th nested group of the current group. *)
Inductive Step :=
| StepPoint (index : nat)
| StepGroup (index : nat).

Definition stepSuffix (st : Step) : string :=
  match st with
  | StepPoint index => "_point_" +:+ JS.ofNat index
  | StepGroup index => "_group_" +:+ JS.ofNat index
  end.

Fixpoint pathSuffix (path : list Step) : string :=
  match path with
  | [] => ""
  | st :: rest => stepSuffix st +:+ pathSuffix rest
  end.

(** The identifier that belongs to a structural path: it mentions neither
    the expansion state nor the content of the model. *)
Definition pathId (path : list Step) : string := "root_group" +:+ pathSuffix path.

(** The entity of a group reached by a structural path. *)
Fixpoint resolve (g : Group) (path : list Step) : option NodeData :=
  match path with
  | [] => Some (DGroup g)
  | StepPoint index :: rest =>
      match rest with
      | [] => DPoint <$> orEmpty (g_points g) !! index
      | _ :: _ => None
      end
  | StepGroup index :: rest =>
      match orEmpty (g_groups g) !! index with
      | Some g' => resolve g' rest
      | None => None
      end
  end.

(** The groups and points reachable from a group, each occurrence once: the
    group, its points, then what is reachable from its nested groups. *)
Fixpoint entities (g : Group) : list NodeData :=
  match g with
  | mkGroup _ _ _ _ points groups =>
      DGroup g :: (DPoint <$> orEmpty points)
      ++ match groups with
         | Some gs => mjoin (entities <$> gs)
         | None => []
         end
  end.

Definition isPointNode (n : TreeNode) : Prop := node_type n = TPoint.
Definition isGroupNode (n : TreeNode) : Prop := node_type n = TGroup.

Global Instance isPointNode_dec n : Decision (isPointNode n).
Proof. unfold isPointNode. apply _. Defined.

Global Instance isGroupNode_dec n : Decision (isGroupNode n).
Proof. unfold isGroupNode. apply _. Defined.

Definition pointChildren (expandedNodes : gset string) (id : string) (level : nat)
    (ps : list Point) : list TreeNode :=
  imap (fun index point =>
          TreeView.createPointNode expandedNodes (id +:+ "_point_" +:+ JS.ofNat index)
            (p_name point) (p_label point) point (level + 1)) ps.

Definition groupChildren (expandedNodes : gset string) (id : string) (level : nat)
    (gs : list Group) : list TreeNode :=
  imap (fun index group =>
          TreeView.createGroupNode expandedNodes (id +:+ "_group_" +:+ JS.ofNat index)
            (g_name group) (g_label group) group (level + 1)) gs.

(** A string that is empty or starts with a character that is not a digit:
    what may follow the digits of an index inside an identifier. *)
Definition noLeadingDigit (r : string) : Prop :=
  match r with
  | "" => True
  | String c _ => JS.isDigit c = false
  end.

(** [m] belongs to the bucket [key]. *)
Definition inCategory (key : string) (m : ModelInfo) : Prop :=
  GitHubService.categoryKey (mi_id m) = key.

Global Instance inCategory_dec key m : Decision (inCategory key m).
Proof. unfold inCategory. apply _. Defined.

(** The keys of the fixed table, in the order of the table. *)
Definition tableKeys : list string := GitHubService.emptyCategories.*1.

(** The bounds column of the bucket table in section 4.2 of the
    specification (lower bound inclusive, upper bound exclusive, no upper
    bound for the last bucket), to be compared with the comparisons of the
    code. *)
Definition categoryBounds : list (string * (Z * option Z)) :=
  [ ("1-99", (0, Some 100)); ("100-199", (100, Some 200));
    ("200-299", (200, Some 300)); ("300-399", (300, Some 400));
    ("400-499", (400, Some 500)); ("500-599", (500, Some 600));
    ("600-699", (600, Some 700)); ("700-799", (700, Some 800));
    ("800-899", (800, Some 900)); ("900+", (900, None)) ]%Z.

Definition withinBounds (id : Z) (b : Z * option Z) : Prop :=
  (b.1 ≤ id)%Z ∧ match b.2 with Some hi => (id < hi)%Z | None => True end.

(** A bucket of the table after the models [ms] have been pushed. *)
Definition withMembers (ms : list ModelInfo) (kc : string * GitHubService.Category)
    : string * GitHubService.Category :=
  (kc.1, GitHubService.mkCategory (GitHubService.range kc.2) (GitHubService.description kc.2)
           (GitHubService.models kc.2 ++ filter (inCategory kc.1) ms)).

(** [s] contains, after the prefix [pre], the text [model_] followed by the
    digits [ds] and by [.json]: an occurrence of the pattern of the code. *)
Definition occursAt (s pre ds : string) : Prop :=
  ∃ post, s = pre +:+ "model_" +:+ ds +:+ ".json" +:+ post
          ∧ ds ≠ "" ∧ JS.allDigits ds = true.

(** No occurrence of the pattern starts further left. *)
Definition leftmost (s pre : string) : Prop :=
  ∀ pre' ds', occursAt s pre' ds' → (String.length pre ≤ String.length pre')%nat.

(** The pattern in the words of the specification, [model_<digits>]: the
    text [model_] followed by a maximal run of digits, with no requirement
    on what follows; [pre] is the text in front of it. *)
Definition specOccursAt (s pre ds : string) : Prop :=
  ∃ post, s = pre +:+ "model_" +:+ ds +:+ post
          ∧ ds ≠ "" ∧ JS.allDigits ds = true ∧ noLeadingDigit post.

Definition specLeftmost (s pre : string) : Prop :=
  ∀ pre' ds', specOccursAt s pre' ds' → (String.length pre ≤ String.length pre')%nat.

(** [modelData.id] if present, else [0]. *)
Definition payloadId (modelData : GitHubService.ModelData) : Z :=
  match GitHubService.propId modelData with
  | Some z => z
  | None => 0%Z
  end.

(** The id resolution as the specification words it, with the pattern
    [model_<digits>]. *)
Definition idResolutionAsSpecified : Prop :=
  ∀ sourceName rawDocument info,
    GitHubService.extractModelInfo sourceName rawDocument = Some info →
    (∀ pre ds, specOccursAt sourceName pre ds → specLeftmost sourceName pre →
               GitHubService.i_id info = JS.parseDigits ds)
    ∧ ((∀ pre ds, ¬ specOccursAt sourceName pre ds) →
       GitHubService.i_id info = payloadId rawDocument).

(** The name as the specification words it: a trailing [.json] is cut off,
    anything else is kept. *)
Definition stripTrailingJson (sourceName : string) : string :=
  if JS.endsWith sourceName ".json"
  then String.rev (JS.drop 5 (String.rev sourceName))
  else sourceName.




(** Sample data *)

Definition samplePoint (name : string) (label desc : option string) : Point :=
  mkPoint name "uint16" label desc None None None.

Definition sampleGroup : Group :=
  mkGroup "Settings" "group" None None
    (Some [samplePoint "Voltage" (Some "Volt AC") None; samplePoint "Current" None None])
    (Some [mkGroup "Inner" "group" None None (Some [samplePoint "W" None (Some "Watts")]) None]).

Definition sampleModel : SunSpecModel := mkModel 103 (Some sampleGroup) (Some "Meter") None.

Definition sampleInfo (id : Z) (filename : string) : ModelInfo :=
  mkModelInfo id filename None None filename.

(** The tree of the sample model with only the root expanded, and what the
    search for "volt" leaves of it. *)
Definition sampleTree : TreeNode := TreeView.buildTree {["root"]} sampleModel.

Definition sampleFiltered : TreeNode :=
  Eval vm_compute in default sampleTree (TreeView.filteredTree sampleTree "volt").

(** ** Further code of the sources *)

(** *** components/TreeView.tsx: rendering and clicks *)

Module TreeRender.

(** [node.children.length > 0] *)
Definition hasChildren (node : TreeNode) : bool := (0 <? length (children node))%nat.

(** [renderNode]: the rows that are drawn, in document order. The row of
    the node comes first; the rows of the children follow when
    [hasChildren && isExpanded], where [isExpanded] is the local constant
    [expandedNodes.has(node.id)] (the field [node.isExpanded] is not
    read). *)
Fixpoint renderNode (expandedNodes : gset string) (node : TreeNode) : list TreeNode :=
  let isExpanded := bool_decide (node_id node ∈ expandedNodes) in
  node :: (if hasChildren node && isExpanded
           then mjoin (renderNode expandedNodes <$> children node)
           else []).

(** The [onClick] handler of a row, [hasChildren && toggleNode(node.id)], as
    the update of [expandedNodes]. *)
Definition onClick (node : TreeNode) (expandedNodes : gset string) : gset string :=
  if hasChildren node then TreeView.toggleNode (node_id node) expandedNodes
  else expandedNodes.

(** What the tree pane shows: [filteredTree ? renderNode(filteredTree) : ...],
    [None] being the "No results found" message. *)
Definition treePane (expandedNodes : gset string) (model : SunSpecModel)
    (searchTerm : string) : option (list TreeNode) :=
  renderNode expandedNodes
  <$> TreeView.filteredTree (TreeView.buildTree expandedNodes model) searchTerm.

End TreeRender.

(** *** components/ModelSummary.tsx: the figures shown *)

Module SummaryFigures.

(** [totalPoints] *)
Definition totalPoints (group : Group) : nat := ModelSummary.countPoints group.

(** [totalGroups = countGroups(model.group) - 1] *)
Definition totalGroups (group : Group) : nat := (ModelSummary.countGroups group - 1)%nat.

End SummaryFigures.

(** *** services/githubService.ts: the requests and their failures *)

Module Requests.
Import GitHubService.

(** What [fetch] and [response.json()] can do inside [getModelList]: the
    request fails, the response is not [ok], the body is not JSON, or the
    body is the array of files. *)
Inductive ListResponse :=
| ListNetworkError
| ListNotOk (statusText : string)
| ListInvalidJson
| ListOk (files : list GitHubFile).

(** [getModelList] with its [try]/[catch]: the error thrown for a response
    that is not [ok] is thrown inside the [try], so it is caught like any
    other and replaced. [inl] is the message of the error thrown. *)
Definition getModelList (response : ListResponse) : string + list GitHubFile :=
  match response with
  | ListOk files => inr (GitHubService.getModelList files)
  | ListNetworkError | ListNotOk _ | ListInvalidJson =>
      inl "Failed to load model list from GitHub"
  end.

(** [getAllModelsWithMetadata] with its outer [try]/[catch]. *)
Definition getAllModelsWithMetadata (response : ListResponse)
    (getModel : string → option ModelData) : string + list ModelInfo :=
  match getModelList response with
  | inl _ => inl "Failed to load models from GitHub"
  | inr files =>
      let results := loadOne getModel <$> files in
      let validModels := omap (fun r => r) results in
      inr (JS.sort byId validModels)
  end.

End Requests.

(** *** components/ModelList.tsx *)

Module ModelList.

(** The state cells written by [loadModels] and [toggleCategory]. *)
Record ListState := mkListState {
  models : list ModelInfo;
  categorizedModels : list (string * GitHubService.Category);
  expandedCategories : gset string;
  isLoading : bool;
  error : string
}.

(** The predicate of [models.filter(...)] in the search effect: the name,
    the label and the description are compared in lower case, the decimal
    id is compared with the term as typed. *)
Definition matchesModel (searchTerm : string) (model : ModelInfo) : bool :=
  JS.includes (JS.toLowerCase (mi_name model)) (JS.toLowerCase searchTerm)
  || TreeView.optIncludes (mi_label model) searchTerm
  || TreeView.optIncludes (mi_desc model) searchTerm
  || JS.includes (JS.ofZ (mi_id model)) searchTerm.

(** The value given to [setFilteredModels] by the search effect. *)
Definition filteredModels (models : list ModelInfo) (searchTerm : string)
    : list ModelInfo :=
  if String.eqb searchTerm "" then models
  else filter (fun model => matchesModel searchTerm model = true) models.

(** [toggleCategory] *)
Definition toggleCategory (categoryKey : string) (prev : gset string) : gset string :=
  if bool_decide (categoryKey ∈ prev) then prev ∖ {[categoryKey]}
  else prev ∪ {[categoryKey]}.

(** [loadModels], given the outcome of [getAllModelsWithMetadata] ([inl]:
    the message of the error it throws). [Object.keys(categories)[0]] is the
    first key of the categorised catalog. *)
Definition loadModels (outcome : string + list ModelInfo) (st : ListState) : ListState :=
  match outcome with
  | inr modelInfos =>
      let categories := GitHubService.categorizeModels modelInfos in
      {| models := modelInfos;
         categorizedModels := categories;
         expandedCategories :=
           match categories.*1 with
           | key :: _ => {[key]}
           | [] => expandedCategories st
           end;
         isLoading := false;
         error := "" |}
  | inl message =>
      {| models := models st;
         categorizedModels := categorizedModels st;
         expandedCategories := expandedCategories st;
         isLoading := false;
         error := message |}
  end.

(** The cards drawn by the component once loading is over and no error is
    shown: with a search term the search results, without one the members
    of the categories whose key is in [expandedCategories], category by
    category. *)
Definition cards (categorizedModels : list (string * GitHubService.Category))
    (expandedCategories : gset string) (filteredModels : list ModelInfo)
    (searchTerm : string) : list ModelInfo :=
  if negb (String.eqb searchTerm "") then filteredModels
  else mjoin ((fun entry =>
                 if bool_decide (entry.1 ∈ expandedCategories)
                 then GitHubService.models entry.2 else [])
              <$> categorizedModels).

End ModelList.

(** *** components/FileUpload.tsx *)

Module FileUpload.

(** The properties of a dropped [File] that the handlers read. *)
Record File := mkFile {
  file_name : string;
  file_type : string
}.

(** The predicate of [files.find(...)] in [handleDrop]. *)
Definition isJsonFile (file : File) : bool :=
  String.eqb (file_type file) "application/json" || JS.endsWith (file_name file) ".json".

(** [handleDrop]: the file handed to [onFileUpload], [None] when
    [onFileUpload] is not called. *)
Definition handleDrop (files : list File) : option File := List.find isJsonFile files.

(** [handleFileSelect]: [e.target.files?.[0]]. *)
Definition handleFileSelect (files : option (list File)) : option File :=
  files ≫= head.

End FileUpload.

(** *** Notions for the further properties *)

(** Some node of the subtree of [node], the node itself included, matches
    the search term. *)
Definition subtreeMatches (term : string) (node : TreeNode) : Prop :=
  ∃ n, n ∈ treeNodes node ∧ TreeView.matchesSearch term n = true.

(** The bucket number of an id in the table of categories. *)
Definition categoryRank (id : Z) : nat :=
  if (id <? 100)%Z then 0
  else if (id <? 200)%Z then 1
  else if (id <? 300)%Z then 2
  else if (id <? 400)%Z then 3
  else if (id <? 500)%Z then 4
  else if (id <? 600)%Z then 5
  else if (id <? 700)%Z then 6
  else if (id <? 800)%Z then 7
  else if (id <? 900)%Z then 8
  else 9.

(** A document whose own [id] is absent or [0], or that has no group: the
    validation of [App] rejects it. *)
Definition failsValidation (d : GitHubService.ModelData) : Prop :=
  GitHubService.propId d = None ∨ GitHubService.propId d = Some 0%Z
  ∨ GitHubService.propGroup d = None.

(** Whether the document of a listed file can be fetched and is not
    [null]: then [extractModelInfo] returns and the file gets its catalog
    entry. *)
Definition fetchable (getModel : string → option GitHubService.ModelData)
    (name : string) : bool :=
  match getModel name with
  | Some GitHubService.JNull | None => false
  | Some _ => true
  end.

(** What the user does in [App]: select a catalog entry (the requests of
    that moment answer as [getModel] says) or press the reset button. *)
Inductive Action :=
| Select (getModel : string → option GitHubService.ModelData) (modelInfo : ModelInfo)
| Reset.

Definition handle (a : Action) : list App.Event :=
  match a with
  | Select getModel modelInfo => App.handleModelSelect getModel modelInfo
  | Reset => App.handleReset
  end.

(** The initial values of the four [useState] cells of [App]. *)
Definition initialState : App.AppState := App.mkAppState None None "" false.

(** The state after a sequence of actions, each handler running to its
    end. *)
Definition session (actions : list Action) : App.AppState :=
  fold_left (fun st a => App.run st (handle a)) actions initialState.

(** The catalog of three files used as sample data: the document of the
    second one has no group. *)
Definition sampleListing : list GitHubService.GitHubFile :=
  (fun name => GitHubService.mkGitHubFile name name name)
  <$> ["model_103.json"; "model_9.json"; "README.md"].

Definition sampleGetModel (name : string) : option GitHubService.ModelData :=
  if String.eqb name "model_103.json"
  then Some (GitHubService.JObject (Some 103%Z) (Some sampleGroup) (Some "Meter") None)
  else if String.eqb name "model_9.json"
  then Some (GitHubService.JObject (Some 9%Z) None None None)
  else None.

(** * Properties *)

(** ** Induction principles for the nested types *)

Lemma TreeNode_nested_ind (P : TreeNode → Prop) :
  (∀ id name label ty e ch d lvl,
      Forall P ch → P (mkTreeNode id name label ty e ch d lvl)) →
  ∀ t, P t.
Proof.
  intros step. fix IH 1. intros [id name label ty e ch d lvl].
  apply step. induction ch as [|c ch IHch]; constructor; [apply IH | exact IHch].
Qed.

Lemma Group_nested_ind (P : Group → Prop) :
  (∀ name ty label desc points groups,
      Forall P (orEmpty groups) →
      P (mkGroup name ty label desc points groups)) →
  ∀ g, P g.
Proof.
  intros step. fix IH 1. intros [name ty label desc points groups].
  apply step. destruct groups as [gs|]; [|constructor]. simpl.
  induction gs as [|c gs IHgs]; constructor; [apply IH | exact IHgs].
Qed.

(** ** Strings *)

Section StringFacts.

Lemma startsWith_spec s p : JS.startsWith s p = true ↔ ∃ r, s = p +:+ r.
Proof.
  revert s. induction p as [|a p IH]; intros s; simpl.
  - split; [by exists s|done].
  - destruct s as [|b s].
    + split; [done|]. intros [r Hr]. discriminate.
    + destruct (ascii_dec a b) as [->|Hne].
      * rewrite IH. split; intros [r Hr]; exists r; simpl in *; congruence.
      * split; [done|]. intros [r Hr]. simpl in Hr. congruence.
Qed.

Lemma includes_spec s p :
  JS.includes s p = true ↔ ∃ pre post, s = pre +:+ p +:+ post.
Proof.
  induction s as [|c s IH]; simpl.
  - rewrite orb_false_r, startsWith_spec. split.
    + intros [r Hr]. by exists "", r.
    + intros (pre & post & H). destruct pre; simpl in H; [eauto|discriminate].
  - rewrite orb_true_iff, IH, startsWith_spec. split.
    + intros [[r Hr]|(pre & post & H)].
      * by exists "", r.
      * exists (String c pre), post. simpl. by rewrite H.
    + intros (pre & post & H). destruct pre as [|c' pre]; simpl in H.
      * left. eauto.
      * right. exists pre, post. congruence.
Qed.

Lemma toLowerCase_app a b :
  JS.toLowerCase (a +:+ b) = JS.toLowerCase a +:+ JS.toLowerCase b.
Proof. induction a as [|c a IH]; simpl; [done|by rewrite IH]. Qed.

Lemma toLowerCase_split s a b :
  JS.toLowerCase s = a +:+ b →
  ∃ s1 s2, s = s1 +:+ s2 ∧ JS.toLowerCase s1 = a ∧ JS.toLowerCase s2 = b.
Proof.
  revert s. induction a as [|c a IH]; intros s H; simpl in H.
  - by exists "", s.
  - destruct s as [|c' s]; simpl in H; [discriminate|].
    injection H as Hc Hs. destruct (IH _ Hs) as (s1 & s2 & -> & H1 & H2).
    exists (String c' s1), s2. simpl. by rewrite H1, Hc.
Qed.

Lemma includes_ignoring_case s term :
  JS.includes (JS.toLowerCase s) (JS.toLowerCase term) = true
  ↔ occursIgnoringCase term s.
Proof.
  rewrite includes_spec. unfold occursIgnoringCase. split.
  - intros (pre & post & H).
    destruct (toLowerCase_split _ _ _ H) as (s1 & s2 & -> & H1 & H2).
    destruct (toLowerCase_split _ _ _ H2) as (s3 & s4 & -> & H3 & H4).
    by exists s1, s3, s4.
  - intros (pre & mid & post & -> & H).
    exists (JS.toLowerCase pre), (JS.toLowerCase post).
    by rewrite !toLowerCase_app, H.
Qed.

End StringFacts.

(** ** Lists built by an indexed [forEach] *)

Section ImapFacts.
Context {A B : Type}.

Lemma Forall_imap (P : B → Prop) (f : nat → A → B) (l : list A) :
  (∀ i x, l !! i = Some x → P (f i x)) → Forall P (imap f l).
Proof.
  intros H. apply Forall_forall. intros y Hy.
  apply elem_of_lookup_imap_1 in Hy as (i & x & -> & Hx). eauto.
Qed.

Lemma Forall2_imap {C} (R : B → C → Prop) (f : nat → A → B) (g : nat → A → C)
    (l : list A) :
  (∀ i x, l !! i = Some x → R (f i x) (g i x)) →
  Forall2 R (imap f l) (imap g l).
Proof.
  revert f g. induction l as [|x l IH]; intros f g H; simpl; constructor.
  - apply (H 0%nat x). reflexivity.
  - apply IH. intros i y Hy. apply (H (S i) y Hy).
Qed.

Lemma imap_ext_Forall (P : A → Prop) (f g : nat → A → B) (l : list A) :
  Forall P l → (∀ i x, P x → f i x = g i x) → imap f l = imap g l.
Proof.
  intros HP H. apply imap_ext. intros i x Hx. apply H.
  rewrite Forall_forall in HP. apply HP. by eapply list_elem_of_lookup_2.
Qed.

Lemma join_imap_singleton (f : nat → A → B) (l : list A) :
  mjoin (imap (fun i x => [f i x]) l) = imap f l.
Proof.
  revert f. induction l as [|x l IH]; intros f; simpl; [done|].
  f_equal. apply (IH (f ∘ S)).
Qed.

End ImapFacts.

Lemma NoDup_join {A} (ls : list (list A)) :
  Forall NoDup ls →
  (∀ i j l1 l2 x, ls !! i = Some l1 → ls !! j = Some l2 → x ∈ l1 → x ∈ l2 → i = j) →
  NoDup (mjoin ls).
Proof.
  induction ls as [|l ls IH]; intros Hnd Hdisj; simpl; [constructor|].
  inversion Hnd as [|? ? Hl Hls]; subst.
  apply NoDup_app. split; [done|]. split.
  - intros x Hx Hin. apply list_elem_of_join in Hin as (l' & Hx' & Hl').
    apply list_elem_of_lookup in Hl' as [j Hj].
    specialize (Hdisj 0%nat (S j) l l' x). simpl in Hdisj.
    by specialize (Hdisj eq_refl Hj Hx Hx').
  - apply IH; [done|]. intros i j l1 l2 x Hi Hj H1 H2.
    specialize (Hdisj (S i) (S j) l1 l2 x Hi Hj H1 H2). lia.
Qed.

(** ** The tree builder: unfolding equations *)

Section BuildFacts.
Variable expandedNodes : gset string.
Let createPointNode := TreeView.createPointNode expandedNodes.
Let createGroupNode := TreeView.createGroupNode expandedNodes.

Lemma createGroupNode_children id name label g level :
  children (createGroupNode id name label g level)
  = pointChildren expandedNodes id level (orEmpty (g_points g))
    ++ groupChildren expandedNodes id level (orEmpty (g_groups g)).
Proof.
  destruct g as [gn gt gl gd points groups]; simpl.
  f_equal.
  - destruct points; reflexivity.
  - destruct groups as [gs|]; [|reflexivity]. simpl.
    unfold groupChildren.
    enough (H : ∀ k,
      (fix forEach (index : nat) (rest : list Group) {struct rest} : list TreeNode :=
         match rest with
         | [] => []
         | group :: rest' =>
             createGroupNode (id +:+ "_group_" +:+ JS.ofNat index)
               (g_name group) (g_label group) group (level + 1)
             :: forEach (S index) rest'
         end) k gs
      = imap (fun index group =>
          createGroupNode (id +:+ "_group_" +:+ JS.ofNat (k + index))
            (g_name group) (g_label group) group (level + 1)) gs)
      by apply (H 0%nat).
    induction gs as [|g0 gs IH]; intros k; [reflexivity|].
    rewrite imap_cons. rewrite Nat.add_0_r. f_equal.
    rewrite IH. apply imap_ext. intros i x _. unfold compose.
    replace (k + S i)%nat with (S k + i)%nat by lia. reflexivity.
Qed.

Lemma createGroupNode_fields id name label g level :
  node_id (createGroupNode id name label g level) = id
  ∧ node_name (createGroupNode id name label g level) = name
  ∧ node_label (createGroupNode id name label g level) = label
  ∧ node_type (createGroupNode id name label g level) = TGroup
  ∧ isExpanded (createGroupNode id name label g level) = bool_decide (id ∈ expandedNodes)
  ∧ node_data (createGroupNode id name label g level) = DGroup g
  ∧ node_level (createGroupNode id name label g level) = level.
Proof. by destruct g. Qed.

Lemma nodes_unfold t :
  treeNodes t = t :: mjoin (treeNodes <$> children t).
Proof. by destruct t. Qed.

Lemma nodes_pointChildren id level ps :
  mjoin (treeNodes <$> pointChildren expandedNodes id level ps)
  = pointChildren expandedNodes id level ps.
Proof.
  unfold pointChildren. rewrite fmap_imap. simpl.
  apply join_imap_singleton.
Qed.

(** The nodes of a group's subtree: the group node, its point nodes, then
    the subtrees of the nested groups. *)
Lemma nodes_createGroupNode id name label g level :
  treeNodes (createGroupNode id name label g level)
  = createGroupNode id name label g level
    :: pointChildren expandedNodes id level (orEmpty (g_points g))
    ++ mjoin (imap (fun index group =>
                 treeNodes
                   (createGroupNode (id +:+ "_group_" +:+ JS.ofNat index)
                      (g_name group) (g_label group) group (level + 1)))
               (orEmpty (g_groups g))).
Proof.
  rewrite nodes_unfold, createGroupNode_children. f_equal.
  rewrite fmap_app, join_app, nodes_pointChildren. f_equal.
  unfold groupChildren. by rewrite fmap_imap.
Qed.

Lemma elem_of_nodes n t :
  n ∈ treeNodes t ↔ n = t ∨ ∃ c, c ∈ children t ∧ n ∈ treeNodes c.
Proof.
  rewrite nodes_unfold, elem_of_cons, list_elem_of_join.
  split; (intros [?|H]; [by left|right]).
  - destruct H as (l & Hn & Hl). apply list_elem_of_fmap in Hl as (c & -> & Hc). eauto.
  - destruct H as (c & Hc & Hn). exists (treeNodes c). split; [done|].
    apply list_elem_of_fmap. eauto.
Qed.

End BuildFacts.

(** ** The tree builder: layout of the tree *)

Section TreeLayout.
Variable expandedNodes : gset string.
Let createPointNode := TreeView.createPointNode expandedNodes.
Let createGroupNode := TreeView.createGroupNode expandedNodes.
Let buildTree := TreeView.buildTree expandedNodes.

Lemma pointChildren_lookup id level ps i p :
  ps !! i = Some p →
  pointChildren expandedNodes id level ps !! i
  = Some (createPointNode (id +:+ "_point_" +:+ JS.ofNat i)
            (p_name p) (p_label p) p (level + 1)).
Proof. intros H. unfold pointChildren. by rewrite list_lookup_imap, H. Qed.

Lemma groupChildren_lookup id level gs j g :
  gs !! j = Some g →
  groupChildren expandedNodes id level gs !! j
  = Some (createGroupNode (id +:+ "_group_" +:+ JS.ofNat j)
            (g_name g) (g_label g) g (level + 1)).
Proof. intros H. unfold groupChildren. by rewrite list_lookup_imap, H. Qed.

Lemma buildTree_children model :
  children (buildTree model)
  = match m_group model with
    | Some g => [createGroupNode "root_group" (g_name g) (g_label g) g 1]
    | None => []
    end.
Proof. reflexivity. Qed.

(** C2. The root node has id "root", name "Model " followed by the model
    id, the label of the model and kind model; its children are the single
    node built from [model.group] with id "root_group" when the group is
    present. The children of the group node with id [P] are one node per
    point, in order, the [i]-th with id [P_point_i], followed by one node
    per nested group, in order, the [j]-th with id [P_group_j] and built
    recursively: points come before nested groups. *)
Theorem buildTree_layout (model : SunSpecModel) :
  (node_id (buildTree model) = "root"
   ∧ node_name (buildTree model) = "Model " +:+ JS.ofZ (m_id model)
   ∧ node_label (buildTree model) = m_label model
   ∧ node_type (buildTree model) = TModel
   ∧ children (buildTree model)
     = match m_group model with
       | Some g => [createGroupNode "root_group" (g_name g) (g_label g) g 1]
       | None => []
       end)
  ∧ ∀ P name label g level,
      let node := createGroupNode P name label g level in
      let points := orEmpty (g_points g) in
      let groups := orEmpty (g_groups g) in
      node_id node = P ∧ node_type node = TGroup
      ∧ length (children node) = (length points + length groups)%nat
      ∧ (∀ i p, points !! i = Some p →
           ∃ c, children node !! i = Some c
                ∧ node_id c = P +:+ "_point_" +:+ JS.ofNat i
                ∧ node_name c = p_name p ∧ node_label c = p_label p
                ∧ node_type c = TPoint ∧ node_data c = DPoint p
                ∧ node_level c = (level + 1)%nat ∧ children c = [])
      ∧ (∀ j g', groups !! j = Some g' →
           children node !! (length points + j)%nat
           = Some (createGroupNode (P +:+ "_group_" +:+ JS.ofNat j)
                     (g_name g') (g_label g') g' (level + 1))).
Proof.
  split; [by repeat split|].
  intros P name label g level node points groups. subst node points groups.
  destruct (createGroupNode_fields expandedNodes P name label g level)
    as (Hid & _ & _ & Hty & _).
  fold createGroupNode in Hid, Hty.
  split; [done|]. split; [done|].
  unfold createGroupNode.
  rewrite createGroupNode_children.
  assert (Hlen : length (pointChildren expandedNodes P level (orEmpty (g_points g)))
                 = length (orEmpty (g_points g)))
    by apply length_imap.
  split; [|split].
  - rewrite length_app, Hlen. unfold groupChildren. by rewrite length_imap.
  - intros i p Hp. eexists. split.
    + rewrite lookup_app_l by (rewrite Hlen; by eapply lookup_lt_Some).
      by apply pointChildren_lookup.
    + by repeat split.
  - intros j g' Hg. rewrite <- Hlen, lookup_app_r by lia.
    replace (_ + j - _)%nat with j by lia.
    by apply groupChildren_lookup.
Qed.

End TreeLayout.

(** ** The tree builder: identifiers and structural paths *)

Lemma str_app_assoc a b c : (a +:+ b) +:+ c = a +:+ (b +:+ c).
Proof. induction a as [|x a IH]; simpl; [done|by rewrite IH]. Qed.

Lemma str_app_empty_r a : a +:+ "" = a.
Proof. induction a as [|x a IH]; simpl; [done|by rewrite IH]. Qed.

Lemma str_app_inv_head a b c : a +:+ b = a +:+ c → b = c.
Proof. induction a as [|x a IH]; simpl; [done|]. intros H. apply IH. congruence. Qed.

Lemma sameUpToExpanded_intro a b :
  sameIdentity a b →
  Forall2 sameUpToExpanded (children a) (children b) →
  sameUpToExpanded a b.
Proof.
  destruct a, b. unfold sameIdentity. simpl.
  intros (-> & -> & -> & -> & -> & ->) H. by constructor.
Qed.

Lemma sameUpToExpanded_ids a :
  ∀ b, sameUpToExpanded a b →
       node_id <$> treeNodes a = node_id <$> treeNodes b.
Proof.
  induction a as [id name label ty e ch d lvl IH] using TreeNode_nested_ind.
  intros b Hab. inversion Hab as [? ? ? ? ? e2 ? ch2 ? ? Hch]; subst.
  simpl. f_equal. clear Hab.
  induction Hch as [|c c2 ch ch2 Hc Hch IHch]; [done|].
  inversion IH as [|? ? IHc IHrest]; subst.
  simpl. rewrite !fmap_app. f_equal; [by apply IHc|by apply IHch].
Qed.

Section TreePaths.
Variable expandedNodes : gset string.
Let createPointNode := TreeView.createPointNode expandedNodes.
Let createGroupNode := TreeView.createGroupNode expandedNodes.
Let buildTree := TreeView.buildTree expandedNodes.

(** Every node below a group node comes from an entity reached by a
    structural path; its identifier is the identifier of the group node
    extended by the suffix of that path. *)
Lemma group_nodes_resolve g :
  ∀ P name label level n,
    n ∈ treeNodes (createGroupNode P name label g level) →
    ∃ path, resolve g path = Some (node_data n)
            ∧ node_id n = P +:+ pathSuffix path
            ∧ node_level n = (level + length path)%nat
            ∧ isExpanded n = bool_decide (node_id n ∈ expandedNodes).
Proof.
  induction g as [gn gt gl gd points groups IH] using Group_nested_ind.
  intros P name label level n Hn.
  unfold createGroupNode in Hn. rewrite nodes_createGroupNode in Hn.
  apply elem_of_cons in Hn as [->|Hn]; [|apply elem_of_app in Hn as [Hn|Hn]].
  - exists []. simpl. rewrite str_app_empty_r, Nat.add_0_r. done.
  - apply elem_of_lookup_imap_1 in Hn as (i & p & -> & Hp).
    exists [StepPoint i]. simpl in *. rewrite Hp, str_app_empty_r. done.
  - apply list_elem_of_join in Hn as (l & Hn & Hl).
    apply elem_of_lookup_imap_1 in Hl as (j & g' & -> & Hg).
    rewrite Forall_forall in IH.
    destruct (IH g' (list_elem_of_lookup_2 _ _ _ Hg) _ _ _ _ _ Hn)
      as (path & Hres & Hid & Hlvl & Hexp).
    exists (StepGroup j :: path). simpl in *. rewrite Hg.
    split; [done|]. split; [|split; [lia|done]].
    rewrite Hid. by rewrite str_app_assoc.
Qed.

(** Conversely every entity reached by a structural path has a node. *)
Lemma resolve_group_node path :
  ∀ g P name label level d,
    resolve g path = Some d →
    ∃ n, n ∈ treeNodes (createGroupNode P name label g level)
         ∧ node_id n = P +:+ pathSuffix path
         ∧ node_data n = d
         ∧ node_level n = (level + length path)%nat.
Proof.
  induction path as [|st path IH]; intros g P name label level d Hres.
  - simpl in Hres. injection Hres as <-.
    exists (createGroupNode P name label g level).
    destruct (createGroupNode_fields expandedNodes P name label g level)
      as (Hid & _ & _ & _ & _ & Hd & Hl).
    fold createGroupNode in Hid, Hd, Hl.
    rewrite Hid, Hd, Hl. simpl. rewrite str_app_empty_r, Nat.add_0_r.
    split; [|done]. unfold createGroupNode. rewrite nodes_unfold. by left.
  - unfold createGroupNode. setoid_rewrite nodes_createGroupNode.
    destruct st as [i|j]; simpl in Hres.
    + destruct path; [|discriminate].
      destruct (orEmpty (g_points g) !! i) as [p|] eqn:Hp; [|discriminate].
      injection Hres as <-.
      exists (createPointNode (P +:+ "_point_" +:+ JS.ofNat i)
                (p_name p) (p_label p) p (level + 1)).
      split; [|simpl; by rewrite str_app_empty_r].
      right. apply elem_of_app. left.
      eapply list_elem_of_lookup_2. by apply pointChildren_lookup.
    + destruct (orEmpty (g_groups g) !! j) as [g'|] eqn:Hg; [|discriminate].
      destruct (IH g' (P +:+ "_group_" +:+ JS.ofNat j) (g_name g') (g_label g')
                  (level + 1)%nat d Hres) as (n & Hn & Hid & Hd & Hl).
      exists n. split; [|split; [|split; [done|simpl; lia]]].
      * right. apply elem_of_app. right. apply list_elem_of_join.
        eexists. split; [exact Hn|].
        by apply (elem_of_lookup_imap_2
          (fun index group => treeNodes (TreeView.createGroupNode expandedNodes
             (P +:+ "_group_" +:+ JS.ofNat index) (g_name group) (g_label group)
             group (level + 1))) _ _ j).
      * rewrite Hid. by rewrite str_app_assoc.
Qed.

Lemma createGroupNode_sameUpToExpanded s2 g :
  ∀ P name label level,
    sameUpToExpanded (createGroupNode P name label g level)
                     (TreeView.createGroupNode s2 P name label g level).
Proof.
  induction g as [gn gt gl gd points groups IH] using Group_nested_ind.
  intros P name label level. apply sameUpToExpanded_intro; [by repeat split|].
  unfold createGroupNode. rewrite !createGroupNode_children.
  apply Forall2_app.
  - apply Forall2_imap. intros i p _. by constructor.
  - apply Forall2_imap. intros j g' Hg. rewrite Forall_forall in IH.
    apply IH. by eapply list_elem_of_lookup_2.
Qed.

Lemma nodes_buildTree model :
  treeNodes (buildTree model)
  = buildTree model
    :: match m_group model with
       | Some g => treeNodes (createGroupNode "root_group" (g_name g) (g_label g) g 1)
       | None => []
       end.
Proof.
  rewrite nodes_unfold. f_equal. unfold buildTree. rewrite buildTree_children.
  destruct (m_group model); simpl; [by rewrite app_nil_r|done].
Qed.

End TreePaths.

Lemma buildTree_isExpanded (s : gset string) (model : SunSpecModel) (n : TreeNode) :
  n ∈ treeNodes (TreeView.buildTree s model) →
  isExpanded n = bool_decide (node_id n ∈ s).
Proof.
  intros Hn. rewrite nodes_buildTree in Hn.
  apply elem_of_cons in Hn as [->|Hn]; [done|].
  destruct (m_group model) as [g|]; [|by apply elem_of_nil in Hn].
  by destruct (group_nodes_resolve s g _ _ _ _ _ Hn) as (? & ? & ? & ? & ?).
Qed.

(** C4. Two trees built from the same model with two expansion states have
    the same shape and agree on the id, name, label, kind, data and depth of
    every node, so they differ at most in [isExpanded]; the flag of a node is
    the membership of its id in the expansion state; and the ids are a
    function of the structural path alone: the entity reached by a path below
    the root group is shown by a node whose id is [pathId path], and every
    node other than the root arises in this way. *)
Theorem buildTree_expansion_independent (model : SunSpecModel) (s1 s2 : gset string) :
  sameUpToExpanded (TreeView.buildTree s1 model) (TreeView.buildTree s2 model)
  ∧ node_id <$> treeNodes (TreeView.buildTree s1 model)
    = node_id <$> treeNodes (TreeView.buildTree s2 model)
  ∧ (∀ s n, n ∈ treeNodes (TreeView.buildTree s model) →
            isExpanded n = bool_decide (node_id n ∈ s))
  ∧ (∀ s g path d,
        m_group model = Some g → resolve g path = Some d →
        ∃ n, n ∈ treeNodes (TreeView.buildTree s model)
             ∧ node_id n = pathId path ∧ node_data n = d
             ∧ node_level n = S (length path))
  ∧ (∀ s n, n ∈ treeNodes (TreeView.buildTree s model) →
        (node_id n = "root" ∧ node_data n = DModel model ∧ node_level n = 0%nat)
        ∨ ∃ g path, m_group model = Some g
                    ∧ resolve g path = Some (node_data n)
                    ∧ node_id n = pathId path
                    ∧ node_level n = S (length path)).
Proof.
  assert (Hsame : sameUpToExpanded (TreeView.buildTree s1 model) (TreeView.buildTree s2 model)).
  { apply sameUpToExpanded_intro; [by repeat split|].
    rewrite !buildTree_children. destruct (m_group model) as [g|]; constructor;
      [apply createGroupNode_sameUpToExpanded|constructor]. }
  split; [exact Hsame|]. split; [by apply sameUpToExpanded_ids|].
  split; [|split].
  - intros s n. apply buildTree_isExpanded.
  - intros s g path d Hg Hres.
    destruct (resolve_group_node s path g "root_group" (g_name g) (g_label g) 1%nat d Hres)
      as (n & Hn & Hid & Hd & Hl).
    exists n. split; [|by repeat split].
    rewrite nodes_buildTree, Hg. by right.
  - intros s n Hn. rewrite nodes_buildTree in Hn.
    apply elem_of_cons in Hn as [->|Hn]; [by left|right].
    destruct (m_group model) as [g|]; [|by apply elem_of_nil in Hn].
    destruct (group_nodes_resolve s g _ _ _ _ _ Hn) as (path & ? & ? & ? & ?).
    by exists g, path.
Qed.

(** ** Decimal indices inside identifiers *)

Lemma digits_app_inj a :
  ∀ b r1 r2,
    JS.allDigits a = true → JS.allDigits b = true →
    noLeadingDigit r1 → noLeadingDigit r2 →
    a +:+ r1 = b +:+ r2 → a = b.
Proof.
  induction a as [|x a IH]; intros [|y b] r1 r2 Ha Hb H1 H2 Heq; simpl in *.
  - done.
  - subst r1. simpl in H1. apply andb_true_iff in Hb as [Hy _]. congruence.
  - subst r2. simpl in H2. apply andb_true_iff in Ha as [Hx _]. congruence.
  - apply andb_true_iff in Ha as [_ Ha]. apply andb_true_iff in Hb as [_ Hb].
    injection Heq as -> Heq. f_equal. by apply (IH b r1 r2).
Qed.

Lemma allDigits_string_of_uint d : JS.allDigits (NilEmpty.string_of_uint d) = true.
Proof. induction d; simpl; by rewrite ?IHd. Qed.

Lemma allDigits_ofNat n : JS.allDigits (JS.ofNat n) = true.
Proof.
  unfold JS.ofNat, NilZero.string_of_uint.
  destruct (Nat.to_uint n); try apply allDigits_string_of_uint. reflexivity.
Qed.

Lemma to_uint_nonnil n : Nat.to_uint n ≠ Decimal.Nil.
Proof.
  rewrite <- (DecimalNat.Unsigned.of_to n) at 1.
  rewrite DecimalNat.Unsigned.to_of. apply DecimalFacts.unorm_nonnil.
Qed.

Lemma ofNat_inj i j : JS.ofNat i = JS.ofNat j → i = j.
Proof.
  unfold JS.ofNat. intros H.
  apply DecimalNat.Unsigned.to_uint_inj.
  assert (Hi := NilZero.usu _ (to_uint_nonnil i)).
  assert (Hj := NilZero.usu _ (to_uint_nonnil j)).
  congruence.
Qed.

Lemma pathSuffix_noLeadingDigit path : noLeadingDigit (pathSuffix path).
Proof. destruct path as [|[i|j] path]; simpl; done. Qed.

(** Two identifiers below different nested groups of one group differ. *)
Lemma group_prefix_inj P i j r1 r2 :
  noLeadingDigit r1 → noLeadingDigit r2 →
  (P +:+ "_group_" +:+ JS.ofNat i) +:+ r1 = (P +:+ "_group_" +:+ JS.ofNat j) +:+ r2 →
  i = j.
Proof.
  intros H1 H2 Heq. rewrite !str_app_assoc in Heq.
  apply str_app_inv_head in Heq. simpl in Heq.
  injection Heq as Heq.
  apply ofNat_inj.
  apply (digits_app_inj _ _ r1 r2); auto using allDigits_ofNat.
Qed.

(** ** The tree builder: one node per entity, distinct identifiers *)

Lemma fmap_join {A B} (f : A → B) (ls : list (list A)) :
  f <$> mjoin ls = mjoin (fmap f <$> ls).
Proof. induction ls as [|l ls IH]; simpl; [done|]. by rewrite fmap_app, IH. Qed.

Lemma length_filter_join {A} (P : A → Prop) `{∀ x, Decision (P x)} (ls : list (list A)) :
  length (filter P (mjoin ls)) = sum_list ((fun l => length (filter P l)) <$> ls).
Proof.
  induction ls as [|l ls IH]; simpl; [done|].
  by rewrite filter_app, length_app, IH.
Qed.

Lemma filter_all {A} (P : A → Prop) `{∀ x, Decision (P x)} (l : list A) :
  Forall P l → filter P l = l.
Proof.
  induction 1 as [|x l Hx Hl IH]; [done|]. by rewrite filter_cons_True, IH.
Qed.

Lemma filter_none {A} (P : A → Prop) `{∀ x, Decision (P x)} (l : list A) :
  Forall (fun x => ¬ P x) l → filter P l = [].
Proof.
  induction 1 as [|x l Hx Hl IH]; [done|]. by rewrite filter_cons_False.
Qed.

Lemma fold_left_add {A} (f : A → nat) (l : list A) (a : nat) :
  fold_left (fun count x => (count + f x)%nat) l a = (a + sum_list (f <$> l))%nat.
Proof.
  revert a. induction l as [|x l IH]; intros a; csimpl; [lia|]. rewrite IH. lia.
Qed.

Lemma countPoints_eq g :
  ModelSummary.countPoints g
  = (length (orEmpty (g_points g))
     + sum_list (ModelSummary.countPoints <$> orEmpty (g_groups g)))%nat.
Proof.
  destruct g as [gn gt gl gd [ps|] [gs|]]; simpl; rewrite ?fold_left_add; lia.
Qed.

Lemma countGroups_eq g :
  ModelSummary.countGroups g
  = (1 + sum_list (ModelSummary.countGroups <$> orEmpty (g_groups g)))%nat.
Proof.
  destruct g as [gn gt gl gd ps [gs|]]; simpl; rewrite ?fold_left_add; lia.
Qed.

Lemma entities_eq g :
  entities g
  = DGroup g :: (DPoint <$> orEmpty (g_points g))
    ++ mjoin (entities <$> orEmpty (g_groups g)).
Proof. by destruct g as [gn gt gl gd ps [gs|]]. Qed.

Section TreeCensus.
Variable expandedNodes : gset string.
Let createPointNode := TreeView.createPointNode expandedNodes.
Let createGroupNode := TreeView.createGroupNode expandedNodes.
Let buildTree := TreeView.buildTree expandedNodes.

Lemma pointChildren_data id level ps :
  node_data <$> pointChildren expandedNodes id level ps = DPoint <$> ps.
Proof. unfold pointChildren. rewrite fmap_imap. apply (imap_const DPoint). Qed.

Lemma pointChildren_ids id level ps :
  node_id <$> pointChildren expandedNodes id level ps
  = imap (fun index _ => id +:+ "_point_" +:+ JS.ofNat index) ps.
Proof. unfold pointChildren. by rewrite fmap_imap. Qed.

Lemma pointChildren_points id level ps :
  filter isPointNode (pointChildren expandedNodes id level ps)
  = pointChildren expandedNodes id level ps.
Proof.
  apply filter_all, Forall_imap. by intros.
Qed.

Lemma pointChildren_groups id level ps :
  filter isGroupNode (pointChildren expandedNodes id level ps) = [].
Proof.
  apply filter_none, Forall_imap. by intros.
Qed.

Lemma group_nodes_data g :
  ∀ P name label level,
    node_data <$> treeNodes (createGroupNode P name label g level) = entities g.
Proof.
  induction g as [gn gt gl gd points groups IH] using Group_nested_ind.
  intros P name label level. unfold createGroupNode.
  rewrite nodes_createGroupNode, entities_eq. simpl.
  f_equal. rewrite fmap_app, pointChildren_data. f_equal.
  rewrite fmap_join, fmap_imap.
  rewrite <- (imap_const entities). f_equal.
  apply (imap_ext_Forall _ _ _ _ IH). intros i g' Hg'. apply Hg'.
Qed.

Lemma group_nodes_points g :
  ∀ P name label level,
    length (filter isPointNode (treeNodes (createGroupNode P name label g level)))
    = ModelSummary.countPoints g.
Proof.
  induction g as [gn gt gl gd points groups IH] using Group_nested_ind.
  intros P name label level. unfold createGroupNode.
  rewrite nodes_createGroupNode, countPoints_eq.
  rewrite filter_cons_False by done.
  rewrite filter_app, length_app, pointChildren_points.
  unfold pointChildren at 1. rewrite length_imap. f_equal.
  rewrite length_filter_join, fmap_imap. cbn [g_groups orEmpty default].
  rewrite <- (imap_const ModelSummary.countPoints). f_equal.
  apply (imap_ext_Forall _ _ _ _ IH). intros i g' Hg'. apply Hg'.
Qed.

Lemma group_nodes_groups g :
  ∀ P name label level,
    length (filter isGroupNode (treeNodes (createGroupNode P name label g level)))
    = ModelSummary.countGroups g.
Proof.
  induction g as [gn gt gl gd points groups IH] using Group_nested_ind.
  intros P name label level. unfold createGroupNode.
  rewrite nodes_createGroupNode, countGroups_eq.
  rewrite filter_cons_True by done.
  rewrite filter_app, pointChildren_groups. cbn [app length Nat.add]. f_equal.
  rewrite length_filter_join, fmap_imap. cbn [g_groups orEmpty default].
  rewrite <- (imap_const ModelSummary.countGroups). f_equal.
  apply (imap_ext_Forall _ _ _ _ IH). intros i g' Hg'. apply Hg'.
Qed.

End TreeCensus.

Lemma str_app_id_l P r : P = P +:+ r → r = "".
Proof.
  intros H. symmetry. apply (str_app_inv_head P). by rewrite str_app_empty_r.
Qed.

Lemma NoDup_imap_index {A B} (f : nat → A → B) (l : list A) :
  (∀ i j x y, f i x = f j y → i = j) → NoDup (imap f l).
Proof.
  intros Hf. apply NoDup_alt. intros i j y Hi Hj.
  apply list_lookup_imap_Some in Hi as (x1 & _ & ->).
  apply list_lookup_imap_Some in Hj as (x2 & _ & Heq).
  by apply (Hf i j x1 x2).
Qed.

Section TreeIds.
Variable expandedNodes : gset string.
Let createGroupNode := TreeView.createGroupNode expandedNodes.
Let buildTree := TreeView.buildTree expandedNodes.

Lemma subtree_id_form Q name label g level x :
  x ∈ node_id <$> treeNodes (createGroupNode Q name label g level) →
  ∃ path, x = Q +:+ pathSuffix path.
Proof.
  intros Hx. apply list_elem_of_fmap in Hx as (n & -> & Hn).
  destruct (group_nodes_resolve expandedNodes g _ _ _ _ _ Hn) as (path & _ & Hid & _).
  by exists path.
Qed.

Lemma group_ids_NoDup g :
  ∀ P name label level,
    NoDup (node_id <$> treeNodes (createGroupNode P name label g level)).
Proof.
  induction g as [gn gt gl gd points groups IH] using Group_nested_ind.
  intros P name label level. unfold createGroupNode.
  rewrite nodes_createGroupNode, fmap_cons, fmap_app, pointChildren_ids,
    fmap_join, fmap_imap.
  cbn [node_id TreeView.createGroupNode g_groups g_points orEmpty default].
  set (subtreeIds := fun (index : nat) (group : Group) =>
         node_id <$> treeNodes (TreeView.createGroupNode expandedNodes
           (P +:+ "_group_" +:+ JS.ofNat index) (g_name group) (g_label group)
           group (level + 1))).
  assert (Hsub : ∀ x, x ∈ mjoin (imap subtreeIds (default [] groups)) →
                      ∃ j path, x = (P +:+ "_group_" +:+ JS.ofNat j) +:+ pathSuffix path).
  { intros x Hx. apply list_elem_of_join in Hx as (l & Hx & Hl).
    apply elem_of_lookup_imap_1 in Hl as (j & g' & -> & _).
    apply subtree_id_form in Hx as [path ->]. by exists j, path. }
  apply NoDup_cons. split; [|apply NoDup_app; split; [|split]].
  - intros Hin. apply elem_of_app in Hin as [Hin|Hin].
    + apply elem_of_lookup_imap_1 in Hin as (i & p & Heq & _).
      by apply str_app_id_l in Heq.
    + apply Hsub in Hin as (j & path & Heq).
      rewrite str_app_assoc in Heq. by apply str_app_id_l in Heq.
  - apply NoDup_imap_index. intros i j _ _ Heq.
    apply str_app_inv_head in Heq. simpl in Heq. injection Heq as Heq.
    by apply ofNat_inj.
  - intros x Hx Hin.
    apply elem_of_lookup_imap_1 in Hx as (i & p & -> & _).
    apply Hsub in Hin as (j & path & Heq).
    rewrite str_app_assoc in Heq. apply str_app_inv_head in Heq.
    simpl in Heq. discriminate.
  - apply NoDup_join.
    + apply Forall_imap. intros j g' Hg. rewrite Forall_forall in IH.
      apply IH. by eapply list_elem_of_lookup_2.
    + intros i j l1 l2 x Hi Hj H1 H2.
      apply list_lookup_imap_Some in Hi as (g1 & _ & ->).
      apply list_lookup_imap_Some in Hj as (g2 & _ & ->).
      apply subtree_id_form in H1 as [path1 ->].
      apply subtree_id_form in H2 as [path2 Heq].
      apply (group_prefix_inj P i j (pathSuffix path1) (pathSuffix path2));
        auto using pathSuffix_noLeadingDigit.
Qed.

Lemma buildTree_ids_NoDup model :
  NoDup (node_id <$> treeNodes (buildTree model)).
Proof.
  unfold buildTree. rewrite nodes_buildTree, fmap_cons.
  apply NoDup_cons. split.
  - destruct (m_group model) as [g|]; [|apply not_elem_of_nil].
    intros Hin. apply subtree_id_form in Hin as [path Heq].
    simpl in Heq. discriminate.
  - destruct (m_group model) as [g|]; [apply group_ids_NoDup|constructor].
Qed.

(** C3. The tree built from a model has exactly one node per point and per
    group reachable from the model: listing the [data] of the nodes gives
    the model followed by the reachable entities, each occurrence once and
    none left out; the numbers of point nodes and of group nodes are the
    numbers counted by [countPoints] and [countGroups]; and the ids of the
    nodes are pairwise distinct. *)
Theorem buildTree_one_node_per_entity (model : SunSpecModel) :
  node_data <$> treeNodes (buildTree model)
  = DModel model :: match m_group model with
                    | Some g => entities g
                    | None => []
                    end
  ∧ (∀ g, m_group model = Some g →
          length (filter isPointNode (treeNodes (buildTree model)))
          = ModelSummary.countPoints g
          ∧ length (filter isGroupNode (treeNodes (buildTree model)))
            = ModelSummary.countGroups g)
  ∧ NoDup (node_id <$> treeNodes (buildTree model)).
Proof.
  split; [|split; [|apply buildTree_ids_NoDup]].
  - unfold buildTree. rewrite nodes_buildTree, fmap_cons. f_equal.
    destruct (m_group model) as [g|]; [apply group_nodes_data|done].
  - intros g Hg. unfold buildTree. rewrite nodes_buildTree, Hg.
    rewrite !filter_cons_False by done.
    split; [apply group_nodes_points|apply group_nodes_groups].
Qed.

End TreeIds.

(** ** The search filter *)

Section FilterFacts.
Variable term : string.

Lemma filterNode_unfold node :
  TreeView.filterNode term node
  = let filteredChildren := omap (TreeView.filterNode term) (children node) in
    if TreeView.matchesSearch term node || (0 <? length filteredChildren)%nat then
      Some {| node_id := node_id node; node_name := node_name node;
              node_label := node_label node; node_type := node_type node;
              isExpanded := true;
              children := filteredChildren;
              node_data := node_data node; node_level := node_level node |}
    else None.
Proof. by destruct node. Qed.

Lemma optIncludes_spec o :
  TreeView.optIncludes o term = true ↔ ∃ l, o = Some l ∧ occursIgnoringCase term l.
Proof.
  destruct o as [l|]; simpl.
  - rewrite includes_ignoring_case. split; [eauto|]. by intros (? & [= <-] & ?).
  - split; [done|]. by intros (? & ? & _).
Qed.

(** The boolean computed by the code is the match described by the
    specification. *)
Lemma matchesSearch_spec node :
  TreeView.matchesSearch term node = true ↔ selfMatches term node.
Proof.
  unfold TreeView.matchesSearch, selfMatches.
  rewrite !orb_true_iff, andb_true_iff, bool_decide_eq_true,
    includes_ignoring_case, !optIncludes_spec.
  tauto.
Qed.

Lemma filteredTree_filterNode node :
  term ≠ "" → TreeView.filteredTree node term = TreeView.filterNode term node.
Proof.
  intros Hne. unfold TreeView.filteredTree.
  destruct (String.eqb_spec term ""); [done|done].
Qed.

Lemma keptChildren_filterNode node :
  term ≠ "" → keptChildren term node = omap (TreeView.filterNode term) (children node).
Proof.
  intros Hne. unfold keptChildren. apply list_omap_ext.
  apply Forall2_same_length_lookup. split; [done|].
  intros i x y Hx Hy. rewrite Hx in Hy. injection Hy as <-.
  by apply filteredTree_filterNode.
Qed.

(** A node that is kept is always marked as expanded. *)
Lemma filterNode_isExpanded node r :
  TreeView.filterNode term node = Some r → isExpanded r = true.
Proof.
  rewrite filterNode_unfold. simpl. case_match; [|done]. by intros [= <-].
Qed.

End FilterFacts.

(** C1 (amended). With an empty term the filter gives the node back
    unchanged. With a non-empty term, let [selfMatches] be the
    case-insensitive occurrence of the term in the name, or in the label when
    present, or (for nodes of kind point only) in the point's [desc], and let
    [keptChildren] be the non-absent results of filtering the children, in
    their order. The result is absent exactly when the node does not match
    and no child is kept; otherwise it is a copy of the node whose children
    are [keptChildren] and whose [isExpanded] is true, whether or not
    [keptChildren] is empty. *)
Theorem filteredTree_spec (node : TreeNode) (term : string) :
  (term = "" → TreeView.filteredTree node term = Some node)
  ∧ (term ≠ "" →
     (TreeView.filteredTree node term = None
      ↔ ¬ selfMatches term node ∧ keptChildren term node = [])
     ∧ (¬ (¬ selfMatches term node ∧ keptChildren term node = []) →
        TreeView.filteredTree node term
        = Some (copyExpanded node (keptChildren term node)))).
Proof.
  split; [by intros ->|]. intros Hne.
  rewrite filteredTree_filterNode, keptChildren_filterNode by done.
  rewrite filterNode_unfold. cbv zeta.
  rewrite <- matchesSearch_spec.
  set (kept := omap (TreeView.filterNode term) (children node)).
  assert (Hkept : (0 <? length kept)%nat = false ↔ kept = []).
  { destruct kept; simpl; split; done. }
  destruct (TreeView.matchesSearch term node) eqn:Hm; simpl.
  - split; [|done]. split; [done|]. by intros [? _].
  - destruct (0 <? length kept)%nat eqn:Hk.
    + split; [|done]. split; [done|]. intros [_ Hnil]. apply Hkept in Hnil. congruence.
    + split.
      * split; [|done]. intros _. split; [done|]. by apply Hkept.
      * intros Hnot. exfalso. apply Hnot. split; [done|]. by apply Hkept.
Qed.

(** C1 fails as stated: a point node that is collapsed and matches the term
    has no kept children, and comes out expanded. *)
Lemma filter_counterexample : ¬ filterAsSpecified.
Proof.
  intros H.
  destruct (H (TreeView.createPointNode ∅ "root_group_point_0" "Voltage"
                 (Some "Volt AC") (samplePoint "Voltage" (Some "Volt AC") None) 2)
              "volt") as [_ Hterm].
  destruct Hterm as [_ Hcopy]; [done|].
  assert (Hkept : ¬ (¬ selfMatches "volt"
                       (TreeView.createPointNode ∅ "root_group_point_0" "Voltage"
                          (Some "Volt AC") (samplePoint "Voltage" (Some "Volt AC") None) 2)
                     ∧ keptChildren "volt"
                         (TreeView.createPointNode ∅ "root_group_point_0" "Voltage"
                            (Some "Volt AC") (samplePoint "Voltage" (Some "Volt AC") None) 2)
                       = [])).
  { intros [Hno _]. apply Hno. by apply matchesSearch_spec. }
  specialize (Hcopy Hkept). vm_compute in Hcopy. discriminate Hcopy.
Qed.

(** ** The filter keeps the identity of the nodes *)

Lemma sublist_elem_of {A} (l1 l2 : list A) x : sublist l1 l2 → x ∈ l1 → x ∈ l2.
Proof.
  induction 1 as [|y l1 l2 _ IH|y l1 l2 _ IH]; intros Hx; [done| |].
  - apply elem_of_cons in Hx as [->|Hx]; [left|right; auto].
  - right. auto.
Qed.

Lemma sublist_join {A} (ls1 ls2 : list (list A)) :
  sublist ls1 ls2 → sublist (mjoin ls1) (mjoin ls2).
Proof.
  induction 1 as [|l ls1 ls2 _ IH|l ls1 ls2 _ IH]; simpl; [done| |].
  - by apply sublist_app.
  - by apply sublist_inserts_l.
Qed.

Lemma sublist_join_Forall2 {A} (ls1 ls2 : list (list A)) :
  Forall2 sublist ls1 ls2 → sublist (mjoin ls1) (mjoin ls2).
Proof. induction 1; simpl; [done|]. by apply sublist_app. Qed.

Lemma omap_pruned {A B} (f : A → option B) (R : B → A → Prop) (l : list A) :
  Forall (fun x => ∀ y, f x = Some y → R y x) l →
  ∃ kept, sublist kept l ∧ Forall2 R (omap f l) kept.
Proof.
  induction 1 as [|x l Hx _ (kept & Hsub & Hall)]; simpl.
  - exists []. split; constructor.
  - destruct (f x) as [y|] eqn:Hy.
    + exists (x :: kept). split; [by constructor|]. constructor; auto.
    + exists kept. split; [by constructor|done].
Qed.

Lemma NoDup_fmap_eq {A B} (f : A → B) (l : list A) x y :
  NoDup (f <$> l) → x ∈ l → y ∈ l → f x = f y → x = y.
Proof.
  intros Hnd Hx Hy Heq.
  apply list_elem_of_lookup in Hx as [i Hi]. apply list_elem_of_lookup in Hy as [j Hj].
  assert (i = j) as ->.
  { eapply NoDup_lookup; [exact Hnd| |].
    - by rewrite list_lookup_fmap, Hi.
    - by rewrite list_lookup_fmap, Hj, Heq. }
  congruence.
Qed.

Lemma filterNode_pruned term node :
  ∀ r, TreeView.filterNode term node = Some r → prunedFrom r node.
Proof.
  induction node as [id name label ty e ch d lvl IH] using TreeNode_nested_ind.
  intros r. rewrite filterNode_unfold. cbv zeta. case_match; [|done].
  intros [= <-]. simpl.
  destruct (omap_pruned (TreeView.filterNode term) prunedFrom ch IH)
    as (kept & Hsub & Hall).
  by econstructor.
Qed.

Lemma prunedFrom_nodes r :
  ∀ n, prunedFrom r n →
       (∀ r', r' ∈ treeNodes r → ∃ n', n' ∈ treeNodes n ∧ sameIdentity r' n')
       ∧ sublist (node_id <$> treeNodes r) (node_id <$> treeNodes n).
Proof.
  induction r as [id name label ty e ch d lvl IH] using TreeNode_nested_ind.
  intros n Hrn.
  inversion Hrn as [? ? ? ? ? e' ? ch' kept ? ? Hsub Hall]; subst.
  assert (Hch : Forall2 (fun c k =>
            (∀ r', r' ∈ treeNodes c →
                   ∃ n', n' ∈ treeNodes k ∧ sameIdentity r' n')
            ∧ sublist (node_id <$> treeNodes c) (node_id <$> treeNodes k))
          ch kept).
  { clear Hrn Hsub. induction Hall as [|c k ch kept Hck Hall IHall]; [constructor|].
    inversion IH as [|? ? IHc IHch]; subst. constructor; auto. }
  clear IH Hall. split.
  - intros r' Hr'. apply elem_of_nodes in Hr' as [->|(c & Hc & Hr')].
    + exists (mkTreeNode id name label ty e' ch' d lvl).
      split; [rewrite nodes_unfold; by left|by repeat split].
    + simpl in Hc. apply list_elem_of_lookup in Hc as [i Hi].
      destruct (Forall2_lookup_l _ _ _ _ _ Hch Hi) as (k & Hk & Hrel & _).
      destruct (Hrel r' Hr') as (n' & Hn' & Hsame).
      exists n'. split; [|done]. apply elem_of_nodes. right. exists k.
      split; [|done]. simpl. eapply sublist_elem_of; [exact Hsub|].
      by eapply list_elem_of_lookup_2.
  - rewrite !(nodes_unfold (mkTreeNode _ _ _ _ _ _ _ _)), !fmap_cons. simpl.
    apply sublist_skip. rewrite !fmap_join.
    transitivity (mjoin (fmap node_id <$> (treeNodes <$> kept))).
    + apply sublist_join_Forall2.
      clear Hsub Hrn. induction Hch as [|c k ch kept [_ Hck] _ IHch]; constructor; auto.
    + apply sublist_join. do 2 apply fmap_sublist. exact Hsub.
Qed.

Lemma elem_of_toggleNode (nodeId x : string) (s : gset string) :
  x ∈ TreeView.toggleNode nodeId s
  ↔ (x ≠ nodeId ∧ x ∈ s) ∨ (x = nodeId ∧ nodeId ∉ s).
Proof.
  unfold TreeView.toggleNode. case_bool_decide as Hin.
  - rewrite elem_of_difference, elem_of_singleton. split.
    + intros [Hx Hne]. by left.
    + intros [[Hne Hx] | [-> Hx]]; [done|contradiction].
  - rewrite elem_of_union, elem_of_singleton. split.
    + intros [Hx | ->]; [left|by right]. split; [|done]. by intros ->.
    + intros [[_ Hx] | [-> _]]; [by left|by right].
Qed.

(** C10. For a non-empty term, the result of the filter is the input tree
    with subtrees removed: every node of the result keeps the id, name,
    label, kind, data and depth of the node it comes from, only [children]
    and [isExpanded] change. The ids of the filtered tree, in order, are a
    subsequence of the ids of the unfiltered tree. When the ids of the
    unfiltered tree are pairwise distinct, as they are in a built tree, the
    node of the unfiltered tree that carries the id of a filtered node is the
    node it comes from, and toggling that id changes the expansion flag of
    that node only when the tree is rebuilt. *)
Theorem filter_keeps_identity (node : TreeNode) (term : string) (r : TreeNode) :
  term ≠ "" →
  TreeView.filteredTree node term = Some r →
  prunedFrom r node
  ∧ (∀ r', r' ∈ treeNodes r →
           ∃ n', n' ∈ treeNodes node ∧ sameIdentity r' n')
  ∧ sublist (node_id <$> treeNodes r) (node_id <$> treeNodes node)
  ∧ (NoDup (node_id <$> treeNodes node) →
     ∀ r' n', r' ∈ treeNodes r → n' ∈ treeNodes node →
              node_id n' = node_id r' → sameIdentity r' n')
  ∧ (∀ s model, node = TreeView.buildTree s model →
       ∀ r', r' ∈ treeNodes r →
         ∃ n', n' ∈ treeNodes node ∧ sameIdentity r' n'
           ∧ (∀ n'', n'' ∈ treeNodes node → node_id n'' = node_id r' → n'' = n')
           ∧ ∀ m, m ∈ treeNodes
                        (TreeView.buildTree (TreeView.toggleNode (node_id r') s) model) →
                  isExpanded m
                  = if decide (node_id m = node_id r')
                    then negb (bool_decide (node_id r' ∈ s))
                    else bool_decide (node_id m ∈ s)).
Proof.
  intros Hne Hf. rewrite filteredTree_filterNode in Hf by done.
  pose proof (filterNode_pruned _ _ _ Hf) as Hpr.
  destruct (prunedFrom_nodes _ _ Hpr) as [Hnodes Hids].
  assert (Huniq : NoDup (node_id <$> treeNodes node) →
     ∀ r' n', r' ∈ treeNodes r → n' ∈ treeNodes node →
              node_id n' = node_id r' → sameIdentity r' n').
  { intros Hnd r' n' Hr' Hn' Hid.
    destruct (Hnodes r' Hr') as (n0 & Hn0 & Hsame).
    assert (n' = n0) as ->; [|done].
    apply (NoDup_fmap_eq node_id (treeNodes node)); [done..|].
    rewrite Hid. apply Hsame. }
  split; [done|]. split; [done|]. split; [done|]. split; [exact Huniq|].
  intros s model -> r' Hr'.
  pose proof (buildTree_ids_NoDup s model) as Hnd.
  destruct (Hnodes r' Hr') as (n0 & Hn0 & Hsame).
  exists n0. split; [done|]. split; [done|]. split.
  - intros n'' Hn'' Hid.
    apply (NoDup_fmap_eq node_id (treeNodes (TreeView.buildTree s model)));
      [done..|].
    rewrite Hid. apply Hsame.
  - intros m Hm. rewrite (buildTree_isExpanded _ _ _ Hm).
    case_decide as Hid.
    + rewrite Hid.
      destruct (bool_decide_reflect (node_id r' ∈ s)) as [Hin|Hout]; simpl.
      * apply bool_decide_eq_false. rewrite elem_of_toggleNode. tauto.
      * apply bool_decide_eq_true. rewrite elem_of_toggleNode. tauto.
    + apply bool_decide_ext. rewrite elem_of_toggleNode. tauto.
Qed.

(** ** Categories *)

Section CategoryFacts.
Import GitHubService.

Lemma push_all ms :
  ∀ categories,
    fold_left (fun categories model => push (categoryKey (mi_id model)) model categories)
      ms categories
    = withMembers ms <$> categories.
Proof.
  induction ms as [|m ms IH]; intros categories; simpl.
  - rewrite <- (list_fmap_id categories) at 1. apply list_fmap_ext.
    intros _ [k [r d l]] _. unfold withMembers. simpl. by rewrite app_nil_r.
  - rewrite IH. unfold push. rewrite <- list_fmap_compose.
    apply list_fmap_ext. intros _ [k [r d l]] _. unfold withMembers. simpl.
    destruct (String.eqb_spec k (categoryKey (mi_id m))) as [->|Hne]; simpl.
    + rewrite filter_cons_True by done. by rewrite <- app_assoc.
    + rewrite filter_cons_False; [done|]. unfold inCategory. congruence.
Qed.

Lemma filter_nonempty_Exists {A} (P : A → Prop) `{∀ x, Decision (P x)} (l : list A) :
  (0 < length (filter P l))%nat ↔ Exists P l.
Proof.
  induction l as [|x l IH]; simpl.
  - split; [lia|]. by intros ?%Exists_nil.
  - rewrite filter_cons, Exists_cons. case_decide; simpl; [|tauto].
    split; [tauto|lia].
Qed.

Lemma drop_empty_buckets ms categories :
  Forall (fun kc => models kc.2 = []) categories →
  filter (fun kc => (0 < length (models kc.2))%nat) (withMembers ms <$> categories)
  = withMembers ms <$> filter (fun kc => Exists (inCategory kc.1) ms) categories.
Proof.
  induction 1 as [|kc categories Hkc _ IH]; [done|].
  csimpl. rewrite !filter_cons, IH.
  assert (Hiff : (0 < length (models (withMembers ms kc).2))%nat
                 ↔ Exists (inCategory kc.1) ms).
  { unfold withMembers. simpl. rewrite Hkc. simpl. apply filter_nonempty_Exists. }
  destruct (decide (0 < length (models (withMembers ms kc).2))%nat) as [H1|H1],
    (decide (Exists (inCategory kc.1) ms)) as [H2|H2]; try done; tauto.
Qed.

(** The result of [categorizeModels]: the buckets of the table that
    receive a model, in table order, each with the models of its range in
    input order. *)
Lemma categorizeModels_eq ms :
  categorizeModels ms
  = (fun kc => (kc.1, mkCategory (range kc.2) (description kc.2)
                        (filter (inCategory kc.1) ms)))
    <$> filter (fun kc => Exists (inCategory kc.1) ms) emptyCategories.
Proof.
  unfold categorizeModels. rewrite push_all, drop_empty_buckets.
  - apply list_fmap_ext. intros i kc Hkc.
    apply list_elem_of_lookup_2, list_elem_of_filter in Hkc as [_ Hkc].
    unfold withMembers. do 2 f_equal.
    unfold emptyCategories in Hkc.
    repeat (apply elem_of_cons in Hkc as [Heq|Hkc]; [by rewrite Heq|]).
    by apply elem_of_nil in Hkc.
  - unfold emptyCategories. by repeat constructor.
Qed.

Lemma categoryKey_in_table id : categoryKey id ∈ tableKeys.
Proof.
  unfold categoryKey, tableKeys. simpl.
  repeat (case_match; [set_solver|]). set_solver.
Qed.

Lemma tableKeys_NoDup : NoDup tableKeys.
Proof. unfold tableKeys. simpl. apply (bool_decide_unpack _). by vm_compute. Qed.

Lemma categoryKey_bounds id key b :
  (0 ≤ id)%Z → (key, b) ∈ categoryBounds →
  categoryKey id = key ↔ withinBounds id b.
Proof.
  intros Hid Hin. unfold categoryBounds in Hin.
  repeat (apply elem_of_cons in Hin as [Heq|Hin]; [injection Heq as -> ->|]);
    [..|by apply elem_of_nil in Hin].
  all: unfold categoryKey, withinBounds; simpl.
  all: repeat (match goal with
               | |- context [Z.ltb ?a ?b] => destruct (Z.ltb_spec a b)
               end).
  all: split; intros Hgoal; first [discriminate Hgoal | reflexivity | lia].
Qed.

End CategoryFacts.

Section Partition.
Context {A K : Type} `{EqDecision K} (key : A → K).

Lemma filter_key_split (k : K) (ks : list K) (l : list A) :
  k ∉ ks →
  filter (fun x => key x = k) l ++ filter (fun x => key x ∈ ks) l
  ≡ₚ filter (fun x => key x ∈ k :: ks) l.
Proof.
  intros Hk. induction l as [|x l IH]; [done|].
  rewrite !filter_cons.
  destruct (decide (key x = k)) as [Heq|Hne].
  - rewrite decide_False by (by rewrite Heq).
    rewrite decide_True by (rewrite Heq; by left).
    simpl. by rewrite IH.
  - destruct (decide (key x ∈ ks)) as [Hin|Hout].
    + rewrite decide_True by (by right).
      rewrite <- Permutation_middle. by rewrite IH.
    + rewrite decide_False; [done|].
      intros [?|?]%elem_of_cons; done.
Qed.

(** Grouping a list by key loses and duplicates nothing. *)
Lemma group_by_key_perm (ks : list K) (l : list A) :
  NoDup ks →
  mjoin ((fun k => filter (fun x => key x = k) l) <$> ks)
  ≡ₚ filter (fun x => key x ∈ ks) l.
Proof.
  induction 1 as [|k ks Hk _ IH]; csimpl.
  - rewrite filter_none; [done|]. apply Forall_forall. intros x _. apply not_elem_of_nil.
  - rewrite IH. by apply filter_key_split.
Qed.

Lemma join_drop_empty {B} (f : B → list A) (P : B → Prop) `{∀ b, Decision (P b)}
    (bs : list B) :
  (∀ b, b ∈ bs → ¬ P b → f b = []) →
  mjoin (f <$> filter P bs) = mjoin (f <$> bs).
Proof.
  induction bs as [|b bs IH]; intros Hf; [done|].
  rewrite filter_cons. csimpl.
  destruct (decide (P b)) as [Hb|Hb]; csimpl.
  - rewrite IH; [done|]. intros b' Hb'. apply Hf. by right.
  - rewrite (Hf b) by (done || by left). simpl.
    apply IH. intros b' Hb'. apply Hf. by right.
Qed.

End Partition.

Lemma Exists_filter_nil {A} (P : A → Prop) `{∀ x, Decision (P x)} (l : list A) :
  ¬ Exists P l → filter P l = [].
Proof.
  intros Hno. apply filter_none, Forall_forall. intros x Hx HP.
  apply Hno, Exists_exists. eauto.
Qed.

(** C6. [categorizeModels] gives the buckets of the fixed table that receive
    at least one model, in table order, each holding the models whose id
    falls in its range, in input order; empty buckets are absent. Every input
    descriptor is placed in exactly one bucket, the one given by its id: 0
    and 99 go to 1-99, 100 to 100-199, 899 to 800-899 and 900 to 900+; for a
    non-negative id the bucket is the one whose bounds (lower inclusive,
    upper exclusive, 900+ unbounded) contain the id. *)
Theorem categorizeModels_spec (ms : list ModelInfo) :
  GitHubService.categorizeModels ms
  = (fun kc => (kc.1, GitHubService.mkCategory (GitHubService.range kc.2)
                        (GitHubService.description kc.2)
                        (filter (inCategory kc.1) ms)))
    <$> filter (fun kc => Exists (inCategory kc.1) ms) GitHubService.emptyCategories
  ∧ (GitHubService.categorizeModels ms).*1
    = filter (fun key => Exists (inCategory key) ms) tableKeys
  ∧ (∀ key cat, (key, cat) ∈ GitHubService.categorizeModels ms →
       GitHubService.models cat = filter (inCategory key) ms
       ∧ GitHubService.models cat ≠ [])
  ∧ mjoin ((fun kc => GitHubService.models kc.2) <$> GitHubService.categorizeModels ms)
    ≡ₚ ms
  ∧ (∀ m, m ∈ ms →
       (∃ cat, (GitHubService.categoryKey (mi_id m), cat) ∈ GitHubService.categorizeModels ms)
       ∧ ∀ key cat, (key, cat) ∈ GitHubService.categorizeModels ms →
                    (m ∈ GitHubService.models cat ↔ key = GitHubService.categoryKey (mi_id m)))
  ∧ (GitHubService.categoryKey 0 = "1-99" ∧ GitHubService.categoryKey 99 = "1-99"
     ∧ GitHubService.categoryKey 100 = "100-199"
     ∧ GitHubService.categoryKey 899 = "800-899"
     ∧ GitHubService.categoryKey 900 = "900+")
  ∧ (∀ id key b, (0 ≤ id)%Z → (key, b) ∈ categoryBounds →
       (GitHubService.categoryKey id = key ↔ withinBounds id b)).
Proof.
  pose proof (categorizeModels_eq ms) as Heq.
  assert (Hmem : ∀ key cat, (key, cat) ∈ GitHubService.categorizeModels ms →
       GitHubService.models cat = filter (inCategory key) ms
       ∧ Exists (inCategory key) ms).
  { intros key cat Hin. rewrite Heq in Hin.
    apply list_elem_of_fmap in Hin as (kc & [= -> ->] & Hkc).
    apply list_elem_of_filter in Hkc as [Hex _]. by split. }
  split; [exact Heq|]. split; [|split; [|split; [|split; [|split]]]].
  - rewrite Heq, <- list_fmap_compose. unfold tableKeys.
    generalize GitHubService.emptyCategories. intros l.
    induction l as [|kc l IH]; [done|]. csimpl. rewrite !filter_cons. simpl.
    destruct (decide (Exists (inCategory kc.1) ms)); csimpl; by rewrite IH.
  - intros key cat Hin. destruct (Hmem key cat Hin) as [-> Hex]. split; [done|].
    apply (filter_nonempty_Exists (inCategory key)) in Hex.
    intros Hnil. rewrite Hnil in Hex. simpl in Hex. lia.
  - rewrite Heq, <- list_fmap_compose. unfold compose. cbn [GitHubService.models snd].
    rewrite (join_drop_empty (fun kc : string * GitHubService.Category =>
                                filter (inCategory kc.1) ms)).
    + change (mjoin (((fun k => filter (fun m => GitHubService.categoryKey (mi_id m) = k) ms)
                      ∘ fst) <$> GitHubService.emptyCategories) ≡ₚ ms).
      rewrite list_fmap_compose.
      etrans; [apply (group_by_key_perm (fun m => GitHubService.categoryKey (mi_id m))
                        tableKeys ms tableKeys_NoDup)|].
      rewrite filter_all; [done|]. apply Forall_forall. intros m _.
      apply categoryKey_in_table.
    + intros kc _ Hno. by apply Exists_filter_nil.
  - intros m Hm. split.
    + assert (Hex : Exists (inCategory (GitHubService.categoryKey (mi_id m))) ms).
      { apply Exists_exists. by exists m. }
      pose proof (categoryKey_in_table (mi_id m)) as Hkey.
      unfold tableKeys in Hkey. apply list_elem_of_fmap in Hkey as ([k c] & Hk & Hkc).
      simpl in Hk. subst k. eexists. rewrite Heq. apply list_elem_of_fmap.
      exists (GitHubService.categoryKey (mi_id m), c). split; [done|].
      apply list_elem_of_filter. by split.
    + intros key cat Hin. destruct (Hmem key cat Hin) as [-> _].
      rewrite list_elem_of_filter. unfold inCategory. split; [by intros [-> _]|].
      by intros ->.
  - by repeat split.
  - apply categoryKey_bounds.
Qed.

(** ** Sorting the catalog *)

Section SortFacts.
Context {A : Type} (key : A → Z).
Import GitHubService.

(** A comparator of the form [(a, b) => key(a) - key(b)]. *)
Let compare (a b : A) : Z := (key a - key b)%Z.
Let ascending (a b : A) : Prop := (key a ≤ key b)%Z.

Lemma insertSorted_perm x l : JS.insertSorted compare x l ≡ₚ x :: l.
Proof.
  induction l as [|y l IH]; simpl; [done|].
  case_match; [done|]. rewrite IH. apply perm_swap.
Qed.

Lemma sort_perm l : JS.sort compare l ≡ₚ l.
Proof.
  induction l as [|x l IH]; simpl; [done|].
  by rewrite insertSorted_perm, IH.
Qed.

Lemma insertSorted_sorted x l :
  StronglySorted ascending l → StronglySorted ascending (JS.insertSorted compare x l).
Proof.
  induction 1 as [|y l Hl IH Hy]; simpl.
  - repeat constructor.
  - unfold compare at 1. destruct (Z.leb_spec (key x - key y) 0) as [Hle|Hgt].
    + constructor; [by constructor|]. constructor; [unfold ascending; lia|].
      eapply Forall_impl; [exact Hy|]. unfold ascending. intros z Hz. simpl in *. lia.
    + constructor; [done|].
      rewrite insertSorted_perm. constructor; [unfold ascending; lia|done].
Qed.

Lemma sort_sorted l : StronglySorted ascending (JS.sort compare l).
Proof.
  induction l as [|x l IH]; simpl; [constructor|]. by apply insertSorted_sorted.
Qed.

(** Insertion does not reorder elements with equal keys. *)
Lemma insertSorted_stable k x l :
  filter (fun a => key a = k) (JS.insertSorted compare x l)
  = filter (fun a => key a = k) (x :: l).
Proof.
  induction l as [|y l IH]; simpl; [done|].
  unfold compare at 1. destruct (Z.leb_spec (key x - key y) 0) as [Hle|Hgt]; [done|].
  rewrite (filter_cons _ y), IH, !filter_cons.
  destruct (decide (key x = k)), (decide (key y = k)); try done. lia.
Qed.

Lemma sort_stable k l :
  filter (fun a => key a = k) (JS.sort compare l) = filter (fun a => key a = k) l.
Proof.
  induction l as [|x l IH]; simpl; [done|].
  by rewrite insertSorted_stable, !filter_cons, IH.
Qed.

(** A sorted list is determined by the order of the elements of each key:
    a stable sort has only one possible result. *)
Lemma sorted_stable_unique l1 :
  ∀ l2, StronglySorted ascending l1 → StronglySorted ascending l2 →
        (∀ k, filter (fun a => key a = k) l1 = filter (fun a => key a = k) l2) →
        l1 = l2.
Proof.
  induction l1 as [|a l1 IH]; intros l2 H1 H2 Hf.
  - destruct l2 as [|b l2]; [done|].
    specialize (Hf (key b)). rewrite filter_nil, filter_cons_True in Hf; done.
  - destruct l2 as [|b l2].
    { specialize (Hf (key a)). rewrite filter_nil, filter_cons_True in Hf; done. }
    apply StronglySorted_inv in H1 as [H1 Ha], H2 as [H2 Hb].
    rewrite Forall_forall in Ha, Hb.
    assert (Hin : ∀ k (x : A) (l : list A), x ∈ filter (fun a => key a = k) l → x ∈ l ∧ key x = k).
    { intros k x l Hx. apply list_elem_of_filter in Hx. tauto. }
    assert (Hab : key a = key b).
    { apply Z.le_antisymm.
      - pose proof (Hf (key b)) as Hfb.
        rewrite (filter_cons_True _ b) in Hfb by done.
        assert (Hb1 : b ∈ a :: l1).
        { eapply Hin. rewrite Hfb. by left. }
        apply elem_of_cons in Hb1 as [->|Hb1]; [done|]. by apply Ha.
      - pose proof (Hf (key a)) as Hfa.
        rewrite (filter_cons_True _ a) in Hfa by done.
        assert (Ha2 : a ∈ b :: l2).
        { eapply Hin. rewrite <- Hfa. by left. }
        apply elem_of_cons in Ha2 as [->|Ha2]; [done|]. by apply Hb. }
    assert (a = b) as ->.
    { specialize (Hf (key a)).
      rewrite !filter_cons_True in Hf by done. congruence. }
    f_equal. apply IH; [done..|]. intros k. specialize (Hf k).
    rewrite !filter_cons in Hf. case_decide; congruence.
Qed.

End SortFacts.

Lemma omap_id_fmap {A B} (f : A → option B) (l : list A) :
  omap (fun r => r) (f <$> l) = omap f l.
Proof. induction l as [|x l IH]; csimpl; [done|]. by rewrite IH. Qed.

Lemma omap_app_failed {A B} (f : A → option B) (pre post : list A) (x : A) :
  f x = None → omap f (pre ++ x :: post) = omap f (pre ++ post).
Proof. intros Hx. rewrite !omap_app. csimpl. by rewrite Hx. Qed.

Lemma omap_length_all {A B} (f : A → option B) (l : list A) :
  Forall (fun x => is_Some (f x)) l → length (omap f l) = length l.
Proof.
  induction 1 as [|x l [y Hy] _ IH]; csimpl; [done|]. rewrite Hy. simpl. by rewrite IH.
Qed.

Section LoadOneFacts.
Import GitHubService.
Variable getModel : string → option ModelData.

(** One listed file gives a catalog entry exactly when its document is
    fetched, is not [null], and [extractModelInfo] returns; the entry is
    then what [extractModelInfo] returns, with the file name added. *)
Lemma loadOne_Some file m :
  loadOne getModel file = Some m
  ↔ ∃ d info, getModel (gf_name file) = Some d ∧ d ≠ JNull
              ∧ extractModelInfo (gf_name file) d = Some info
              ∧ m = mkModelInfo (i_id info) (i_name info) (i_label info) (i_desc info)
                      (gf_name file).
Proof.
  unfold loadOne. split.
  - destruct (getModel (gf_name file)) as [d|]; [|done].
    destruct (extractModelInfo (gf_name file) d) as [info|] eqn:Hinfo; [|done].
    intros [= <-]. exists d, info. split; [done|]. split; [|done].
    intros ->. discriminate Hinfo.
  - intros (d & info & -> & _ & -> & ->). done.
Qed.

Lemma loadOne_None file :
  loadOne getModel file = None
  ↔ getModel (gf_name file) = None ∨ getModel (gf_name file) = Some JNull.
Proof.
  unfold loadOne. destruct (getModel (gf_name file)) as [[| |id group label desc]|];
    simpl; split; try done; try tauto; by intros [[=]|[=]].
Qed.

Lemma loadOne_fetchable file :
  is_Some (loadOne getModel file) ↔ fetchable getModel (gf_name file) = true.
Proof.
  unfold loadOne, fetchable.
  destruct (getModel (gf_name file)) as [[| |]|]; simpl;
    split; intros H; try done; by inversion H.
Qed.

Lemma length_omap_filter {A B} (f : A → option B) (l : list A) :
  length (omap f l) = length (filter (fun x => is_Some (f x)) l).
Proof.
  induction l as [|x l IH]; [done|].
  cbn [omap list_omap]. rewrite filter_cons. destruct (f x) as [y|] eqn:Hy.
  - rewrite decide_True by (by eexists). simpl. by rewrite IH.
  - rewrite decide_False; [exact IH|]. by intros [? [=]].
Qed.

End LoadOneFacts.

(** C5. Whenever the listing request succeeds, [getAllModelsWithMetadata]
    returns (it does not raise) the descriptors of exactly those listed files
    whose fetch and extraction succeeded: a failing file is left out and
    nothing else is lost. The result is sorted by ascending id, and
    descriptors with equal ids keep the order of the listing; no other
    arrangement has these two properties. A listed file succeeds exactly
    when its document is fetched, is not [null] and [extractModelInfo]
    returns, and its descriptor is then the value of [extractModelInfo]
    with the file name added; it fails, and is left out, exactly when the
    request fails or the document is [null]; the result has as many
    descriptors as listed files succeed. In particular
    when one listed file fails and the others succeed, the others are
    returned sorted; and descriptors with ids 50, 2, 2, 10 come out in the
    order 2, 2, 10, 50 with the two descriptors of id 2 in their original
    order. *)
Theorem getAllModelsWithMetadata_spec (response : list GitHubService.GitHubFile)
    (getModel : string → option GitHubService.ModelData) :
  let files := GitHubService.getModelList response in
  let succeeded := omap (GitHubService.loadOne getModel) files in
  ∃ result,
    GitHubService.getAllModelsWithMetadata (Some response) getModel = Some result
    ∧ result ≡ₚ succeeded
    ∧ StronglySorted (fun a b => (mi_id a ≤ mi_id b)%Z) result
    ∧ (∀ id, filter (fun m => mi_id m = id) result
             = filter (fun m => mi_id m = id) succeeded)
    ∧ (∀ other,
         StronglySorted (fun a b => (mi_id a ≤ mi_id b)%Z) other →
         (∀ id, filter (fun m => mi_id m = id) other
                = filter (fun m => mi_id m = id) succeeded) →
         other = result)
    ∧ (∀ pre f post,
         files = pre ++ f :: post →
         GitHubService.loadOne getModel f = None →
         Forall (fun x => is_Some (GitHubService.loadOne getModel x)) (pre ++ post) →
         length result = (length pre + length post)%nat
         ∧ result ≡ₚ omap (GitHubService.loadOne getModel) (pre ++ post))
    ∧ (∀ a b c d,
         succeeded = [a; b; c; d] →
         mi_id a = 50%Z → mi_id b = 2%Z → mi_id c = 2%Z → mi_id d = 10%Z →
         result = [b; c; d; a])
    ∧ (∀ file, file ∈ files
               ↔ file ∈ response ∧ JS.endsWith (GitHubService.gf_name file) ".json" = true)
    ∧ (∀ file m,
         GitHubService.loadOne getModel file = Some m
         ↔ ∃ d info,
             getModel (GitHubService.gf_name file) = Some d
             ∧ d ≠ GitHubService.JNull
             ∧ GitHubService.extractModelInfo (GitHubService.gf_name file) d = Some info
             ∧ m = mkModelInfo (GitHubService.i_id info) (GitHubService.i_name info)
                     (GitHubService.i_label info) (GitHubService.i_desc info)
                     (GitHubService.gf_name file))
    ∧ (∀ file,
         GitHubService.loadOne getModel file = None
         ↔ getModel (GitHubService.gf_name file) = None
           ∨ getModel (GitHubService.gf_name file) = Some GitHubService.JNull)
    ∧ (∀ m, m ∈ result
            ↔ ∃ file d info,
                file ∈ files
                ∧ getModel (GitHubService.gf_name file) = Some d
                ∧ d ≠ GitHubService.JNull
                ∧ GitHubService.extractModelInfo (GitHubService.gf_name file) d
                  = Some info
                ∧ m = mkModelInfo (GitHubService.i_id info) (GitHubService.i_name info)
                        (GitHubService.i_label info) (GitHubService.i_desc info)
                        (GitHubService.gf_name file))
    ∧ length result
      = length (filter (fun file =>
                          fetchable getModel (GitHubService.gf_name file) = true)
                  files).
Proof.
  intros files succeeded.
  exists (JS.sort GitHubService.byId succeeded).
  assert (Hperm : JS.sort GitHubService.byId succeeded ≡ₚ succeeded)
    by apply (sort_perm mi_id).
  split; [|split; [done|split; [|split; [|split; [|split; [|split;
    [|split; [|split; [|split; [|split]]]]]]]]]].
  - unfold GitHubService.getAllModelsWithMetadata. cbv zeta.
    by rewrite omap_id_fmap.
  - apply (sort_sorted mi_id).
  - intros id. apply (sort_stable mi_id).
  - intros other Hsorted Hstable.
    apply (sorted_stable_unique mi_id); [done|apply (sort_sorted mi_id)|].
    intros id. rewrite Hstable. symmetry. apply (sort_stable mi_id).
  - intros pre f post Hfiles Hf Hall.
    assert (Hs : succeeded = omap (GitHubService.loadOne getModel) (pre ++ post)).
    { unfold succeeded. rewrite Hfiles. by apply omap_app_failed. }
    split; [|by rewrite Hperm, Hs].
    rewrite Hperm, Hs, omap_length_all, length_app; done.
  - intros [] [] [] [] -> Ha Hb Hc Hd. simpl in Ha, Hb, Hc, Hd. subst.
    reflexivity.
  - intros file. unfold files, GitHubService.getModelList.
    rewrite list_elem_of_filter. tauto.
  - intros file m. apply loadOne_Some.
  - intros file. apply loadOne_None.
  - intros m. rewrite Hperm. unfold succeeded. rewrite list_elem_of_omap. split.
    + intros (file & Hfile & (d & info & Hd & Hnull & Hinfo & ->)%loadOne_Some).
      by exists file, d, info.
    + intros (file & d & info & Hfile & Hd & Hnull & Hinfo & ->).
      exists file. split; [done|]. apply loadOne_Some. by exists d, info.
  - rewrite Hperm. unfold succeeded. rewrite length_omap_filter. f_equal.
    apply list_filter_iff. intros file. apply loadOne_fetchable.
Qed.

(** ** The file-name pattern of [extractModelInfo] *)

Section RegexFacts.
Import GitHubService.

Lemma matchDigitsJson_cons c s :
  matchDigitsJson (String c s)
  = if JS.isDigit c then
      match matchDigitsJson s with
      | Some ds => Some (String c ds)
      | None => if JS.startsWith s ".json" then Some (String c "") else None
      end
    else None.
Proof. reflexivity. Qed.

Lemma matchDigitsJson_sound s :
  ∀ ds, matchDigitsJson s = Some ds →
        ds ≠ "" ∧ JS.allDigits ds = true ∧ ∃ post, s = ds +:+ ".json" +:+ post.
Proof.
  induction s as [|c s IH]; intros ds; [done|].
  rewrite matchDigitsJson_cons.
  destruct (JS.isDigit c) eqn:Hc; [|done].
  destruct (matchDigitsJson s) as [ds'|] eqn:Hm.
  - intros [= <-]. destruct (IH ds' eq_refl) as (_ & Hd & post & ->).
    split; [done|]. split; [simpl; by rewrite Hc, Hd|]. by exists post.
  - destruct (JS.startsWith s ".json") eqn:Hs; [|done].
    intros [= <-]. apply startsWith_spec in Hs as [post ->].
    split; [done|]. split; [simpl; by rewrite Hc|]. by exists post.
Qed.

Lemma matchDigitsJson_complete ds :
  ∀ post, ds ≠ "" → JS.allDigits ds = true →
          matchDigitsJson (ds +:+ ".json" +:+ post) = Some ds.
Proof.
  induction ds as [|c ds IH]; intros post Hne Hd; [done|].
  simpl in Hd. apply andb_true_iff in Hd as [Hc Hd].
  change (String c ds +:+ ".json" +:+ post) with (String c (ds +:+ ".json" +:+ post)).
  rewrite matchDigitsJson_cons, Hc. destruct ds as [|c' ds].
  - reflexivity.
  - by rewrite IH.
Qed.

Lemma matchHere_spec s ds : matchHere s = Some ds ↔ occursAt s "" ds.
Proof.
  unfold matchHere, occursAt. split.
  - destruct (JS.startsWith s "model_") eqn:Hs; [|done].
    apply startsWith_spec in Hs as [r ->]. simpl.
    intros (Hne & Hd & post & ->)%matchDigitsJson_sound. by exists post.
  - intros (post & -> & Hne & Hd). simpl. by apply matchDigitsJson_complete.
Qed.

Lemma occursAt_cons c s pre ds :
  occursAt (String c s) (String c pre) ds ↔ occursAt s pre ds.
Proof.
  unfold occursAt. split; intros (post & Heq & H); exists post; split; try done.
  - simpl in Heq. injection Heq as Heq. exact Heq.
  - rewrite Heq. reflexivity.
Qed.

Lemma occursAt_head c s pre ds :
  occursAt (String c s) pre ds → pre = "" ∨ ∃ pre', pre = String c pre'.
Proof.
  intros (post & Heq & _). destruct pre as [|c' pre]; [by left|right].
  simpl in Heq. injection Heq as -> _. by exists pre.
Qed.

Lemma regexMatch_unfold s :
  regexMatch s
  = match matchHere s with
    | Some ds => Some ds
    | None => match s with
              | "" => None
              | String _ s' => regexMatch s'
              end
    end.
Proof. by destruct s. Qed.

(** A match of the regular expression is a leftmost occurrence. *)
Lemma regexMatch_sound s :
  ∀ ds, regexMatch s = Some ds → ∃ pre, occursAt s pre ds ∧ leftmost s pre.
Proof.
  induction s as [|c s IH]; intros ds; rewrite regexMatch_unfold.
  - by cbn.
  - destruct (matchHere (String c s)) as [ds0|] eqn:Hm.
    + intros [= <-]. exists "". split; [by apply matchHere_spec|].
      intros pre' ds' _. simpl. lia.
    + intros Hr. destruct (IH ds Hr) as (pre & Hocc & Hleft).
      exists (String c pre). split; [by apply occursAt_cons|].
      intros pre' ds' Hocc'.
      destruct (occursAt_head _ _ _ _ Hocc') as [->|[pre'' ->]].
      * apply matchHere_spec in Hocc'. congruence.
      * apply occursAt_cons in Hocc'. simpl. apply Hleft in Hocc'. lia.
Qed.

(** The regular expression fails only when the pattern does not occur. *)
Lemma regexMatch_none s :
  regexMatch s = None → ∀ pre ds, ¬ occursAt s pre ds.
Proof.
  induction s as [|c s IH]; rewrite regexMatch_unfold.
  - intros _ pre ds (post & Heq & _). destruct pre; discriminate.
  - destruct (matchHere (String c s)) as [ds0|] eqn:Hm; [done|].
    intros Hr pre ds Hocc.
    destruct (occursAt_head _ _ _ _ Hocc) as [->|[pre' ->]].
    + apply matchHere_spec in Hocc. congruence.
    + apply occursAt_cons in Hocc. by apply (IH Hr pre' ds).
Qed.

Lemma str_app_same_length a :
  ∀ b x y, a +:+ x = b +:+ y → String.length a = String.length b → a = b ∧ x = y.
Proof.
  induction a as [|c a IH]; intros [|d b] x y Heq Hlen; simpl in *; try done.
  injection Heq as -> Heq. injection Hlen as Hlen.
  destruct (IH b x y Heq Hlen) as [-> ->]. done.
Qed.

(** The digits of an occurrence are determined by its position. *)
Lemma occursAt_unique s pre1 pre2 ds1 ds2 :
  occursAt s pre1 ds1 → occursAt s pre2 ds2 →
  String.length pre1 = String.length pre2 → ds1 = ds2.
Proof.
  intros (post1 & -> & _ & Hd1) (post2 & Heq & _ & Hd2) Hlen.
  apply str_app_same_length in Heq as [_ Heq]; [|done].
  simpl in Heq. injection Heq as Heq.
  by apply (digits_app_inj ds1 ds2 (".json" +:+ post1) (".json" +:+ post2)).
Qed.

Lemma regexMatch_leftmost s pre ds :
  occursAt s pre ds → leftmost s pre → regexMatch s = Some ds.
Proof.
  intros Hocc Hleft. destruct (regexMatch s) as [ds0|] eqn:Hr.
  - destruct (regexMatch_sound s ds0 Hr) as (pre0 & Hocc0 & Hleft0).
    f_equal. apply (occursAt_unique s pre0 pre ds0 ds); [done..|].
    apply Nat.le_antisymm; [by eapply Hleft0|by eapply Hleft].
  - by destruct (regexMatch_none s Hr pre ds).
Qed.

End RegexFacts.

(** ** [extractModelInfo] *)

Section ExtractFacts.
Import GitHubService.

Lemma idOrZero_payloadId modelData : idOrZero (propId modelData) = payloadId modelData.
Proof.
  unfold idOrZero, payloadId. destruct (propId modelData) as [z|]; [|done].
  destruct (Z.eqb_spec z 0); by subst.
Qed.

Lemma extractModelInfo_unfold filename modelData :
  modelData ≠ JNull →
  extractModelInfo filename modelData
  = Some {| i_id := match regexMatch filename with
                    | Some digits => JS.parseDigits digits
                    | None => idOrZero (propId modelData)
                    end;
            i_name := JS.replace filename ".json" "";
            i_label := JS.orStr (propLabel modelData) (propGroup modelData ≫= g_label);
            i_desc := JS.orStr (propDesc modelData) (propGroup modelData ≫= g_desc) |}.
Proof. by destruct modelData. Qed.

(** C8 (amended). For a document that is not [null], [extractModelInfo]
    returns a descriptor whose id is resolved in this order: (1) the
    decimal integer of the leftmost occurrence in the file name of
    [model_<digits>.json] (the digits must be followed by [.json]); (2)
    otherwise the [id] of the document if present; (3) otherwise 0. The
    file name wins whatever the document says. In particular
    ["model_103.json"] with a document that only has a group labelled
    "Meter" gives id 103, name "model_103" and label "Meter". *)
Theorem extractModelInfo_id (filename : string) (modelData : ModelData) :
  modelData ≠ JNull →
  ∃ info,
    extractModelInfo filename modelData = Some info
    ∧ (∀ pre ds, occursAt filename pre ds → leftmost filename pre →
                 i_id info = JS.parseDigits ds)
    ∧ ((∀ pre ds, ¬ occursAt filename pre ds) → i_id info = payloadId modelData)
    ∧ ((∃ pre ds, occursAt filename pre ds ∧ leftmost filename pre)
       ∨ (∀ pre ds, ¬ occursAt filename pre ds))
    ∧ (∀ g, filename = "model_103.json" →
            modelData = JObject None (Some g) None None →
            g_label g = Some "Meter" →
            i_id info = 103%Z ∧ i_name info = "model_103"
            ∧ i_label info = Some "Meter").
Proof.
  intros Hnull. rewrite extractModelInfo_unfold by done.
  eexists. split; [done|]. simpl. split; [|split; [|split]].
  - intros pre ds Hocc Hleft. by rewrite (regexMatch_leftmost _ _ _ Hocc Hleft).
  - intros Hno. destruct (regexMatch filename) as [ds|] eqn:Hr.
    + destruct (regexMatch_sound _ _ Hr) as (pre & Hocc & _).
      by destruct (Hno pre ds).
    + apply idOrZero_payloadId.
  - destruct (regexMatch filename) as [ds|] eqn:Hr.
    + left. destruct (regexMatch_sound _ _ Hr) as (pre & Hocc & Hleft).
      by exists pre, ds.
    + right. by apply regexMatch_none.
  - intros g -> -> Hg. simpl. by rewrite Hg.
Qed.

(** C9. [name] is computed by [filename.replace('.json', '')], which
    removes the first occurrence of [.json] wherever it is: for a file
    name that contains [.json] before its end, the part that is removed is
    not the trailing suffix, and a name that does not end in [.json] is
    changed as well. *)
Theorem extractModelInfo_name_first_occurrence :
  JS.endsWith "site.json.model_5.json" ".json" = true
  ∧ i_name <$> extractModelInfo "site.json.model_5.json" JOther
    = Some "site.model_5.json"
  ∧ stripTrailingJson "site.json.model_5.json" = "site.json.model_5"
  ∧ JS.endsWith "model_5.json.bak" ".json" = false
  ∧ i_name <$> extractModelInfo "model_5.json.bak" JOther = Some "model_5.bak"
  ∧ stripTrailingJson "model_5.json.bak" = "model_5.json.bak".
Proof. by repeat split. Qed.

(** When the file name does not contain [.json] the name is the file
    name. *)
Lemma replace_absent s pat rep : JS.includes s pat = false → JS.replace s pat rep = s.
Proof.
  induction s as [|c s IH]; simpl.
  - by intros ->%orb_false_iff%proj1.
  - intros [-> Hs]%orb_false_iff. by rewrite IH.
Qed.

End ExtractFacts.

(** C8 fails as stated: the file name ["model_7_draft.json"] contains
    [model_7], yet the id is taken from the document. *)
Lemma idResolution_counterexample : ¬ idResolutionAsSpecified.
Proof.
  intros H.
  destruct (H "model_7_draft.json" (GitHubService.JObject (Some 5%Z) None None None)
              _ eq_refl) as [Hpattern _].
  specialize (Hpattern "" "7"). simpl in Hpattern.
  assert (5 = 7)%Z as Hbad; [|done].
  apply Hpattern.
  - exists "_draft.json". by repeat split.
  - intros pre' ds' _. simpl. lia.
Qed.

Lemma extractModelInfo_id_witness :
  ∃ info,
    GitHubService.extractModelInfo "model_7_draft.json"
      (GitHubService.JObject (Some 5%Z) None None None) = Some info
    ∧ GitHubService.i_id info = 5%Z.
Proof.
  destruct (extractModelInfo_id "model_7_draft.json"
              (GitHubService.JObject (Some 5%Z) None None None))
    as (info & Hinfo & _ & Hnone & _); [done|].
  exists info. split; [done|].
  apply Hnone. intros pre ds Hocc.
  by pose proof (regexMatch_none "model_7_draft.json" eq_refl pre ds Hocc).
Defined.

(** ** Model selection in [App] *)

Section SelectionFacts.
Import GitHubService App.
Variable getModel : string → option ModelData.
Variable modelInfo : ModelInfo.



(** The validation accepts a document exactly when it has an [id] other
    than 0 and a group; the model displayed is then that document. *)
Lemma validate_inr d m :
  validate d = inr m
  ↔ ∃ id g, propId d = Some id ∧ id ≠ 0%Z ∧ propGroup d = Some g
            ∧ m = mkModel id (Some g) (propLabel d) (propDesc d).
Proof.
  destruct d as [| |[id|] [g|] label desc]; simpl.
  1,2,4,5,6: split; [done|]; by intros (? & ? & ? & ? & ? & ?).
  destruct (Z.eqb_spec id 0) as [->|Hne]; split.
  - done.
  - by intros (? & ? & [= <-] & ? & ? & ?).
  - intros [= <-]. by exists id, g.
  - by intros (? & ? & [= <-] & _ & [= <-] & ->).
Qed.


Lemma raised_handleModelSelect :
  raised (handleModelSelect getModel modelInfo)
  = match fetchAndValidate getModel modelInfo with
    | inl err => Some err
    | inr _ => None
    end.
Proof. unfold handleModelSelect. by destruct (fetchAndValidate getModel modelInfo). Qed.







End SelectionFacts.


(** A document whose [id] is [0] has an [id] and a group, and is rejected by
    the validation all the same. *)
Lemma validate_id_zero g label desc :
  App.validate (GitHubService.JObject (Some 0%Z) (Some g) label desc)
  = inl App.ValidationFailure.
Proof. reflexivity. Qed.

(** A [null] document does not reach the validation: reading its [id]
    throws. *)
Lemma validate_null : App.validate GitHubService.JNull = inl App.NullAccess.
Proof. reflexivity. Qed.

(** ** The properties at work on sample data *)

Lemma filter_keeps_identity_witness :
  "volt" ≠ ""
  ∧ TreeView.filteredTree sampleTree "volt" = Some sampleFiltered
  ∧ sublist (node_id <$> treeNodes sampleFiltered)
            (node_id <$> treeNodes sampleTree).
Proof.
  split; [done|]. split; [by vm_compute|].
  apply (filter_keeps_identity sampleTree "volt" sampleFiltered);
    [done|by vm_compute].
Defined.

(** The search for "volt" keeps the root, the group "Settings" and the point
    "Voltage", all expanded; the point "Current" and the group "Inner" are
    pruned. *)
Example filter_ancestors_kept :
  (fun n => (node_id n, node_name n, isExpanded n)) <$> treeNodes sampleFiltered
  = [ ("root", "Model 103", true); ("root_group", "Settings", true);
      ("root_group_point_0", "Voltage", true) ].
Proof. reflexivity. Qed.

Example filter_idempotent_on_sample :
  TreeView.filteredTree sampleFiltered "volt" = Some sampleFiltered.
Proof. reflexivity. Qed.

Example buildTree_sample_ids :
  node_id <$> treeNodes sampleTree
  = [ "root"; "root_group"; "root_group_point_0"; "root_group_point_1";
      "root_group_group_0"; "root_group_group_0_point_0" ].
Proof. reflexivity. Qed.

Example catalog_with_one_failure :
  let files := (fun name => GitHubService.mkGitHubFile name name name)
               <$> ["model_50.json"; "model_2.json"; "copy_of_model_2.json";
                    "model_10.json"; "README.md"; "model_7.json"] in
  let getModel := fun name =>
    if String.eqb name "model_7.json" then None else Some GitHubService.JOther in
  (fun m => (mi_id m, mi_filename m))
  <$> default [] (GitHubService.getAllModelsWithMetadata (Some files) getModel)
  = [ (2%Z, "model_2.json"); (2%Z, "copy_of_model_2.json");
      (10%Z, "model_10.json"); (50%Z, "model_50.json") ].
Proof. reflexivity. Qed.

Example selection_of_invalid_document :
  App.run (App.mkAppState (Some sampleModel) None "" false)
    (App.handleModelSelect (fun _ => Some GitHubService.JOther) (sampleInfo 1 "model_1.json"))
  = App.mkAppState (Some sampleModel) None (App.message App.ValidationFailure) false.
Proof. reflexivity. Qed.

(** * Further properties *)

(** ** The search filter: what is kept and what is dropped *)

Lemma omap_nil_Forall {A B} (f : A → option B) (l : list A) :
  omap f l = [] ↔ Forall (fun x => f x = None) l.
Proof.
  induction l as [|x l IH]; simpl.
  - split; [constructor|done].
  - destruct (f x) eqn:Hx; split.
    + discriminate.
    + intros H. inversion H; congruence.
    + intros H. constructor; [done|by apply IH].
    + intros H. inversion H; subst. by apply IH.
Qed.

Lemma omap_join {A B} (f : A → option B) (ls : list (list A)) :
  omap f (mjoin ls) = mjoin (omap f <$> ls).
Proof.
  induction ls as [|l ls IH]; [done|].
  simpl. by rewrite omap_app, IH.
Qed.

Lemma join_nodes_omap {A} (f : A → option TreeNode) (l : list A) :
  mjoin (treeNodes <$> omap f l)
  = mjoin ((fun x => from_option treeNodes [] (f x)) <$> l).
Proof.
  induction l as [|x l IH]; [done|].
  csimpl. destruct (f x); csimpl; by rewrite IH.
Qed.

Section FilterCompleteness.
Variable term : string.

Lemma filterNode_None node :
  TreeView.filterNode term node = None
  ↔ ∀ n, n ∈ treeNodes node → TreeView.matchesSearch term n = false.
Proof.
  induction node as [id name label ty e ch d lvl IH] using TreeNode_nested_ind.
  set (node := mkTreeNode id name label ty e ch d lvl).
  rewrite filterNode_unfold. cbv zeta. change (children node) with ch.
  assert (Hkids : omap (TreeView.filterNode term) ch = []
                  ↔ ∀ c, c ∈ ch → ∀ n, n ∈ treeNodes c →
                                       TreeView.matchesSearch term n = false).
  { rewrite omap_nil_Forall, Forall_forall. rewrite Forall_forall in IH.
    split; intros H c Hc; [by apply IH, H|by apply IH, H]. }
  split.
  - intros H n Hn.
    destruct (TreeView.matchesSearch term node) eqn:Hm; [done|].
    destruct (omap (TreeView.filterNode term) ch) as [|k kept] eqn:Hk; [|done].
    apply elem_of_nodes in Hn as [->|(c & Hc & Hn)]; [done|].
    destruct Hkids as [Hkids _]. by apply (Hkids eq_refl c).
  - intros H. rewrite (H node) by (rewrite nodes_unfold; by left).
    destruct Hkids as [_ ->]; [done|].
    intros c Hc n Hn. apply H, elem_of_nodes. right. by exists c.
Qed.

Lemma filterNode_Some_matches node r :
  TreeView.filterNode term node = Some r → subtreeMatches term node.
Proof.
  intros Hr. unfold subtreeMatches.
  destruct (decide (Exists (fun n => TreeView.matchesSearch term n = true)
                      (treeNodes node))) as [H|H].
  - apply Exists_exists in H. exact H.
  - apply not_Exists_Forall in H; [|intros n; apply _].
    rewrite Forall_forall in H.
    assert (Hnone : TreeView.filterNode term node = None).
    { apply filterNode_None. intros n Hn. specialize (H n Hn). simpl in H.
      by destruct (TreeView.matchesSearch term n). }
    congruence.
Qed.

Lemma filterNode_nodes node :
  omap (TreeView.filterNode term) (treeNodes node)
  = from_option treeNodes [] (TreeView.filterNode term node).
Proof.
  induction node as [id name label ty e ch d lvl IH] using TreeNode_nested_ind.
  set (node := mkTreeNode id name label ty e ch d lvl).
  assert (Hkids : omap (TreeView.filterNode term) (mjoin (treeNodes <$> ch))
                  = mjoin (treeNodes <$> omap (TreeView.filterNode term) ch)).
  { rewrite omap_join, join_nodes_omap, <- list_fmap_compose. f_equal.
    apply Forall_fmap_ext_1. exact IH. }
  rewrite (nodes_unfold node). change (children node) with ch.
  cbn [omap list_omap].
  destruct (TreeView.filterNode term node) as [r|] eqn:Hr.
  - rewrite Hkids. cbn [from_option]. rewrite (nodes_unfold r). f_equal.
    revert Hr. rewrite filterNode_unfold. cbv zeta. case_match; [|done].
    by intros [= <-].
  - rewrite Hkids. cbn [from_option].
    revert Hr. rewrite filterNode_unfold. cbv zeta. change (children node) with ch.
    destruct (omap (TreeView.filterNode term) ch); [done|].
    cbn [length Nat.ltb Nat.leb]. by rewrite orb_true_r.
Qed.

Lemma filterNode_sameIdentity node r :
  TreeView.filterNode term node = Some r → sameIdentity r node.
Proof.
  rewrite filterNode_unfold. cbv zeta. case_match; [|done].
  intros [= <-]. by repeat split.
Qed.

Lemma matchesSearch_sameIdentity a b :
  sameIdentity a b → TreeView.matchesSearch term a = TreeView.matchesSearch term b.
Proof.
  intros (_ & Hname & Hlabel & Hty & Hdata & _).
  unfold TreeView.matchesSearch. by rewrite Hname, Hlabel, Hty, Hdata.
Qed.

Lemma omap_fixed {A} (f : A → option A) (l : list A) :
  Forall (fun x => f x = Some x) l → omap f l = l.
Proof.
  induction 1 as [|x l Hx _ IH]; [done|].
  cbn [omap list_omap]. rewrite Hx. f_equal. exact IH.
Qed.

Lemma Forall_omap {A B} (f : A → option B) (P : B → Prop) (l : list A) :
  Forall (fun x => ∀ y, f x = Some y → P y) l → Forall P (omap f l).
Proof.
  induction 1 as [|x l Hx _ IH]; [constructor|].
  cbn [omap list_omap]. destruct (f x) eqn:Hfx; [constructor; auto|done].
Qed.

Lemma filterNode_fixed node :
  ∀ r, TreeView.filterNode term node = Some r → TreeView.filterNode term r = Some r.
Proof.
  induction node as [id name label ty e ch d lvl IH] using TreeNode_nested_ind.
  intros r Hr.
  assert (Hsame := filterNode_sameIdentity _ _ Hr).
  revert Hr. rewrite filterNode_unfold. cbv zeta. simpl.
  destruct (_ || _) eqn:Hcond; [|done]. intros [= <-].
  rewrite filterNode_unfold. cbv zeta. simpl.
  rewrite (omap_fixed (TreeView.filterNode term)
             (omap (TreeView.filterNode term) ch))
    by (apply (Forall_omap _ (fun y => TreeView.filterNode term y = Some y)), IH).
  rewrite (matchesSearch_sameIdentity _ _ Hsame). simpl. by rewrite Hcond.
Qed.

End FilterCompleteness.

(** X1. A subtree is dropped by the filter exactly when none of its nodes
    matches the term. The nodes of the filtered tree, in document order, are
    the filter results of the nodes of the input that have a match in their
    subtree, in document order; each of them has the identity of its node
    and is marked expanded. *)
Theorem filterNode_complete (term : string) (node : TreeNode) :
  (TreeView.filterNode term node = None ↔ ¬ subtreeMatches term node)
  ∧ omap (TreeView.filterNode term) (treeNodes node)
    = from_option treeNodes [] (TreeView.filterNode term node)
  ∧ (∀ n, n ∈ treeNodes node →
          (TreeView.filterNode term n = None ↔ ¬ subtreeMatches term n)
          ∧ ∀ r', TreeView.filterNode term n = Some r' →
                  r' ∈ from_option treeNodes [] (TreeView.filterNode term node)
                  ∧ sameIdentity r' n ∧ isExpanded r' = true
                  ∧ children r' = omap (TreeView.filterNode term) (children n)).
Proof.
  assert (Hnone : ∀ n, TreeView.filterNode term n = None ↔ ¬ subtreeMatches term n).
  { intros n. rewrite filterNode_None. unfold subtreeMatches. split.
    - intros H (m & Hm & Hmatch). rewrite (H m Hm) in Hmatch. discriminate.
    - intros H m Hm. destruct (TreeView.matchesSearch term m) eqn:Hmatch; [|done].
      destruct H. by exists m. }
  split; [apply Hnone|]. split; [apply filterNode_nodes|].
  intros n Hn. split; [apply Hnone|]. intros r' Hr'.
  split; [|split; [by eapply filterNode_sameIdentity|split]].
  - rewrite <- filterNode_nodes. apply list_elem_of_omap. by exists n.
  - by eapply filterNode_isExpanded.
  - revert Hr'. rewrite filterNode_unfold. cbv zeta. case_match; [|done].
    by intros [= <-].
Qed.

(** X2. Filtering is idempotent: the filtered tree is its own filter result
    for the same term, and so is every node in it; in particular every node
    of the filtered tree has a matching node in its own subtree, and one
    without children matches itself. *)
Theorem filterNode_idempotent (term : string) (node : TreeNode) :
  TreeView.filterNode term node ≫= TreeView.filterNode term
  = TreeView.filterNode term node
  ∧ ∀ r', r' ∈ from_option treeNodes [] (TreeView.filterNode term node) →
          TreeView.filterNode term r' = Some r'
          ∧ subtreeMatches term r'
          ∧ (children r' = [] → TreeView.matchesSearch term r' = true).
Proof.
  split.
  - destruct (TreeView.filterNode term node) as [r|] eqn:Hr; [|done].
    simpl. by eapply filterNode_fixed.
  - intros r'. rewrite <- filterNode_nodes. intros Hr'.
    apply list_elem_of_omap in Hr' as (n & _ & Hn).
    assert (Hfix := filterNode_fixed term n r' Hn).
    split; [done|]. split.
    + by eapply filterNode_Some_matches.
    + intros Hleaf. revert Hfix. rewrite filterNode_unfold. cbv zeta.
      rewrite Hleaf. simpl. rewrite orb_false_r. by case_match.
Qed.

(** ** Refining the search term *)

Lemma includes_trans s p q :
  JS.includes s p = true → JS.includes p q = true → JS.includes s q = true.
Proof.
  rewrite !includes_spec. intros (a & b & ->) (c & d & ->).
  exists (a +:+ c), (d +:+ b). by rewrite !str_app_assoc.
Qed.

Lemma includes_toLowerCase p q :
  JS.includes p q = true → JS.includes (JS.toLowerCase p) (JS.toLowerCase q) = true.
Proof.
  rewrite !includes_spec. intros (a & b & ->).
  exists (JS.toLowerCase a), (JS.toLowerCase b). by rewrite !toLowerCase_app.
Qed.

Lemma includes_empty_l p : JS.includes "" p = true → p = "".
Proof. destruct p; [done|]. simpl. discriminate. Qed.

Lemma optIncludes_refine o term term' :
  JS.includes term term' = true →
  TreeView.optIncludes o term = true → TreeView.optIncludes o term' = true.
Proof.
  intros Hsub. destruct o as [l|]; [|done]. simpl. intros H.
  eapply includes_trans; [exact H|]. by apply includes_toLowerCase.
Qed.

Lemma matchesSearch_refine term term' n :
  JS.includes term term' = true →
  TreeView.matchesSearch term n = true → TreeView.matchesSearch term' n = true.
Proof.
  intros Hsub. unfold TreeView.matchesSearch.
  rewrite !orb_true_iff, !andb_true_iff.
  intros [[H|H]|[Hty H]].
  - left. left. eapply includes_trans; [exact H|]. by apply includes_toLowerCase.
  - left. right. by eapply optIncludes_refine.
  - right. split; [done|]. by eapply optIncludes_refine.
Qed.

Lemma omap_sublist_ids (f g : TreeNode → option TreeNode) (l : list TreeNode) :
  (∀ x y, f x = Some y → ∃ z, g x = Some z ∧ node_id y = node_id z) →
  sublist (node_id <$> omap f l) (node_id <$> omap g l).
Proof.
  intros Hfg. induction l as [|x l IH]; [constructor|].
  cbn [omap list_omap]. destruct (f x) as [y|] eqn:Hy.
  - destruct (Hfg x y Hy) as (z & -> & Hid). rewrite !fmap_cons, Hid.
    by apply sublist_skip.
  - destruct (g x); [|done]. rewrite fmap_cons. by apply sublist_cons.
Qed.

Lemma filter_sublist_impl {A} (P Q : A → Prop) `{∀ x, Decision (P x)}
    `{∀ x, Decision (Q x)} (l : list A) :
  (∀ x, P x → Q x) → sublist (filter P l) (filter Q l).
Proof.
  intros HPQ. induction l as [|x l IH]; [constructor|].
  rewrite !filter_cons. destruct (decide (P x)) as [HP|HP].
  - rewrite decide_True by auto. by apply sublist_skip.
  - destruct (decide (Q x)); [by apply sublist_cons|done].
Qed.

(** X3. Refining the search narrows the tree: when the term [term'] occurs
    in [term] (the user has typed more), a tree for which [term'] finds
    nothing gives nothing for [term] either, and the identifiers of the
    nodes kept for [term] are, in document order, a subsequence of those
    kept for [term']. *)
Theorem filterNode_refine (term term' : string) (node : TreeNode) :
  JS.includes term term' = true →
  (TreeView.filterNode term' node = None → TreeView.filterNode term node = None)
  ∧ sublist
      (node_id <$> from_option treeNodes [] (TreeView.filterNode term node))
      (node_id <$> from_option treeNodes [] (TreeView.filterNode term' node)).
Proof.
  intros Hsub.
  assert (Hstep : ∀ x y, TreeView.filterNode term x = Some y →
                         ∃ z, TreeView.filterNode term' x = Some z
                              ∧ node_id y = node_id z).
  { intros x y Hy.
    destruct (filterNode_Some_matches _ _ _ Hy) as (m & Hm & Hmatch).
    destruct (TreeView.filterNode term' x) as [z|] eqn:Hz.
    - exists z. split; [done|].
      destruct (filterNode_sameIdentity _ _ _ Hy) as [-> _].
      by destruct (filterNode_sameIdentity _ _ _ Hz) as [-> _].
    - rewrite filterNode_None in Hz. specialize (Hz m Hm).
      rewrite (matchesSearch_refine _ _ _ Hsub Hmatch) in Hz. discriminate. }
  split.
  - intros Hnone. destruct (TreeView.filterNode term node) as [y|] eqn:Hy; [|done].
    destruct (Hstep node y Hy) as (z & Hz & _). congruence.
  - rewrite <- !filterNode_nodes. by apply omap_sublist_ids.
Qed.

Lemma filterNode_refine_witness :
  JS.includes "volta" "volt" = true
  ∧ sublist
      (node_id <$> from_option treeNodes [] (TreeView.filterNode "volta" sampleTree))
      (node_id <$> from_option treeNodes [] (TreeView.filterNode "volt" sampleTree)).
Proof.
  split; [reflexivity|].
  apply (filterNode_refine "volta" "volt" sampleTree). reflexivity.
Defined.

(** ** The rows on screen *)

Section RenderFacts.
Variable expandedNodes : gset string.

Lemma renderNode_unfold node :
  TreeRender.renderNode expandedNodes node
  = node :: (if TreeRender.hasChildren node && bool_decide (node_id node ∈ expandedNodes)
             then mjoin (TreeRender.renderNode expandedNodes <$> children node)
             else []).
Proof. by destruct node. Qed.

Lemma hasChildren_true node : TreeRender.hasChildren node = true ↔ children node ≠ [].
Proof.
  unfold TreeRender.hasChildren. destruct (children node); simpl; [|done].
  split; [discriminate|done].
Qed.

Lemma renderNode_sublist node :
  sublist (TreeRender.renderNode expandedNodes node) (treeNodes node).
Proof.
  induction node as [id name label ty e ch d lvl IH] using TreeNode_nested_ind.
  rewrite renderNode_unfold, nodes_unfold. apply sublist_skip.
  case_match; [|apply sublist_nil_l].
  apply sublist_join_Forall2. cbn [children].
  clear -IH. induction IH; constructor; auto.
Qed.

Lemma renderNode_all node :
  (∀ n, n ∈ treeNodes node → children n ≠ [] → node_id n ∈ expandedNodes) →
  TreeRender.renderNode expandedNodes node = treeNodes node.
Proof.
  induction node as [id name label ty e ch d lvl IH] using TreeNode_nested_ind.
  set (node := mkTreeNode id name label ty e ch d lvl).
  intros Hall. rewrite renderNode_unfold, nodes_unfold. f_equal.
  change (children node) with ch.
  assert (Hkids : mjoin (TreeRender.renderNode expandedNodes <$> ch)
                  = mjoin (treeNodes <$> ch)).
  { f_equal. apply Forall_fmap_ext_1. rewrite Forall_forall in IH |- *.
    intros c Hc. apply IH; [done|]. intros n Hn. apply Hall, elem_of_nodes.
    right. by exists c. }
  destruct (TreeRender.hasChildren node) eqn:Hk.
  - apply hasChildren_true in Hk. rewrite bool_decide_true; [exact Hkids|].
    apply Hall; [rewrite nodes_unfold; by left|done].
  - cbn [andb]. unfold TreeRender.hasChildren in Hk.
    change (children node) with ch in Hk. by destruct ch.
Qed.

Lemma renderNode_sameUpToExpanded a :
  ∀ b, sameUpToExpanded a b →
       Forall2 sameIdentity (TreeRender.renderNode expandedNodes a)
                            (TreeRender.renderNode expandedNodes b).
Proof.
  induction a as [id name label ty e ch d lvl IH] using TreeNode_nested_ind.
  intros b Hab. inversion Hab as [? ? ? ? ? e2 ? ch2 ? ? Hch]; subst.
  rewrite !renderNode_unfold. constructor; [by repeat split|].
  cbn [children node_id]. unfold TreeRender.hasChildren. cbn [children].
  rewrite <- (Forall2_length _ _ _ Hch).
  case_match; [|constructor].
  clear -IH Hch. induction Hch as [|c c2 ch ch2 Hc Hch IHch]; [constructor|].
  inversion IH as [|? ? IHc IHrest]; subst.
  csimpl. apply Forall2_app; [by apply IHc|by apply IHch].
Qed.

Lemma renderNode_pruned r :
  ∀ n, prunedFrom r n →
       sublist (node_id <$> TreeRender.renderNode expandedNodes r)
               (node_id <$> TreeRender.renderNode expandedNodes n).
Proof.
  induction r as [id name label ty e ch d lvl IH] using TreeNode_nested_ind.
  intros n Hrn.
  inversion Hrn as [? ? ? ? ? e' ? ch' kept ? ? Hsub Hall]; subst.
  rewrite !renderNode_unfold, !fmap_cons. cbn [node_id children].
  apply sublist_skip.
  destruct (TreeRender.hasChildren _ && _) eqn:Hcond; [|apply sublist_nil_l].
  apply andb_true_iff in Hcond as [Hkids ->].
  apply hasChildren_true in Hkids. cbn [children] in Hkids.
  assert (Hkids' : TreeRender.hasChildren (mkTreeNode id name label ty e' ch' d lvl) = true).
  { apply hasChildren_true. cbn [children]. intros ->.
    apply sublist_nil_r in Hsub as ->. by inversion Hall; subst. }
  rewrite Hkids'. cbn [andb]. rewrite !fmap_join.
  transitivity (mjoin (fmap node_id <$> (TreeRender.renderNode expandedNodes <$> kept))).
  - apply sublist_join_Forall2.
    clear -IH Hall. induction Hall as [|c k ch kept Hck Hall IHall]; [constructor|].
    inversion IH as [|? ? IHc IHch]; subst. csimpl. constructor; auto.
  - apply sublist_join. do 2 apply fmap_sublist. exact Hsub.
Qed.

End RenderFacts.

(** X4. The rows drawn for a tree are a subsequence of its nodes in document
    order, the row of the node first. Whether the children of a node are
    drawn depends on the membership of its id in [expandedNodes] and not on
    its [isExpanded] field: a node whose id is not in the set shows as a
    single row, two trees that differ in [isExpanded] fields only give rows
    of the same identity, and every node is drawn when the ids of all nodes
    with children are in the set. *)
Theorem renderNode_spec (expandedNodes : gset string) (node : TreeNode) :
  sublist (TreeRender.renderNode expandedNodes node) (treeNodes node)
  ∧ head (TreeRender.renderNode expandedNodes node) = Some node
  ∧ (node_id node ∉ expandedNodes → TreeRender.renderNode expandedNodes node = [node])
  ∧ (∀ other, sameUpToExpanded node other →
       Forall2 sameIdentity (TreeRender.renderNode expandedNodes node)
                            (TreeRender.renderNode expandedNodes other))
  ∧ ((∀ n, n ∈ treeNodes node → children n ≠ [] → node_id n ∈ expandedNodes) →
     TreeRender.renderNode expandedNodes node = treeNodes node).
Proof.
  split; [apply renderNode_sublist|]. split; [by rewrite renderNode_unfold|].
  split; [|split; [apply renderNode_sameUpToExpanded|apply renderNode_all]].
  intros Hout. rewrite renderNode_unfold.
  by rewrite bool_decide_false, andb_false_r.
Qed.

(** X5. A search reveals no row: the ids of the rows drawn for the filtered
    tree are a subsequence of the ids of the rows drawn without a search
    term under the same [expandedNodes], although the filter marks every
    node it keeps as expanded. With the root group collapsed, as it is when
    the view is first shown, at most the rows of the model and of the root
    group are drawn, whatever the term matches. *)
Theorem search_reveals_no_row (expandedNodes : gset string) (model : SunSpecModel)
    (searchTerm : string) (rows : list TreeNode) :
  TreeRender.treePane expandedNodes model searchTerm = Some rows →
  sublist (node_id <$> rows)
          (node_id <$> TreeRender.renderNode expandedNodes
                         (TreeView.buildTree expandedNodes model))
  ∧ ("root_group" ∉ expandedNodes →
     sublist (node_id <$> rows) ["root"; "root_group"]).
Proof.
  unfold TreeRender.treePane, TreeView.filteredTree.
  set (tree := TreeView.buildTree expandedNodes model).
  intros Hrows.
  assert (Hsub : sublist (node_id <$> rows)
                   (node_id <$> TreeRender.renderNode expandedNodes tree)).
  { destruct (String.eqb searchTerm "").
    - by injection Hrows as <-.
    - destruct (TreeView.filterNode searchTerm tree) as [r|] eqn:Hr;
        [|discriminate Hrows].
      injection Hrows as <-. by apply renderNode_pruned, (filterNode_pruned searchTerm). }
  split; [exact Hsub|]. intros Hout. etransitivity; [exact Hsub|].
  clear Hrows Hsub.
  subst tree. rewrite renderNode_unfold, fmap_cons, buildTree_children.
  apply sublist_skip. destruct (_ && _); [|apply sublist_nil_l].
  destruct (m_group model) as [g|]; [|apply sublist_nil_l].
  csimpl. rewrite app_nil_r, renderNode_unfold.
  destruct (createGroupNode_fields expandedNodes "root_group" (g_name g) (g_label g) g 1)
    as (-> & _).
  rewrite (bool_decide_false _ Hout), andb_false_r. csimpl.
  destruct (createGroupNode_fields expandedNodes "root_group" (g_name g) (g_label g) g 1)
    as (-> & _).
  done.
Qed.

Lemma search_reveals_no_row_witness :
  sublist
    (node_id <$> default [] (TreeRender.treePane {["root"]} sampleModel "watts"))
    ["root"; "root_group"].
Proof.
  apply (search_reveals_no_row {["root"]} sampleModel "watts");
    [by vm_compute|by vm_compute].
Defined.

(** ** Toggling *)

(** X6. Toggling an id twice restores the set, and toggling changes the
    membership of that id only; the same holds for the categories of the
    model list. A click on a row without children leaves the set as it is,
    a click on a row with children toggles its id, so that two clicks on the
    same row restore the rows drawn. *)
Theorem toggle_involutive (x : string) (s : gset string) :
  TreeView.toggleNode x (TreeView.toggleNode x s) = s
  ∧ ModelList.toggleCategory x (ModelList.toggleCategory x s) = s
  ∧ (x ∈ TreeView.toggleNode x s ↔ x ∉ s)
  ∧ (∀ y, y ≠ x → (y ∈ TreeView.toggleNode x s ↔ y ∈ s))
  ∧ (∀ node, children node = [] → TreeRender.onClick node s = s)
  ∧ (∀ node tree, children node ≠ [] →
       TreeRender.onClick node s = TreeView.toggleNode (node_id node) s
       ∧ TreeRender.renderNode (TreeRender.onClick node (TreeRender.onClick node s)) tree
         = TreeRender.renderNode s tree).
Proof.
  assert (Hinv : ∀ y, TreeView.toggleNode y (TreeView.toggleNode y s) = s).
  { intros y. apply set_eq. intros z. rewrite !elem_of_toggleNode.
    destruct (decide (z = y)) as [->|Hne], (decide (y ∈ s)); tauto. }
  split; [apply Hinv|]. split; [apply Hinv|]. split; [|split; [|split]].
  - rewrite elem_of_toggleNode. tauto.
  - intros y Hy. rewrite elem_of_toggleNode. tauto.
  - intros node Hleaf. unfold TreeRender.onClick, TreeRender.hasChildren.
    by rewrite Hleaf.
  - intros node tree Hkids. apply hasChildren_true in Hkids.
    unfold TreeRender.onClick. rewrite Hkids. split; [done|]. by rewrite Hinv.
Qed.

(** ** The figures of the summary and the size of the tree *)

Lemma sum_list_fmap_add {A} (f g : A → nat) (l : list A) :
  sum_list ((fun x => f x + g x)%nat <$> l)
  = (sum_list (f <$> l) + sum_list (g <$> l))%nat.
Proof. induction l as [|x l IH]; csimpl; [done|]. rewrite IH. lia. Qed.

Lemma entities_length g :
  length (entities g) = (ModelSummary.countGroups g + ModelSummary.countPoints g)%nat.
Proof.
  induction g as [gn gt gl gd points groups IH] using Group_nested_ind.
  rewrite entities_eq, countPoints_eq, countGroups_eq. cbn [g_points g_groups].
  cbn [length]. rewrite length_app, length_fmap, length_join, <- list_fmap_compose.
  rewrite (Forall_fmap_ext_1 (length ∘ entities)
             (fun g => ModelSummary.countGroups g + ModelSummary.countPoints g)%nat
             _ IH).
  rewrite sum_list_fmap_add. lia.
Qed.

(** X7. The figure "Groups" of the summary, [countGroups(model.group) - 1],
    is never cut off at zero: [countGroups] is at least 1, and the figure is
    the number of groups nested below the root group at any depth. The tree
    built for a model has one node for the model, one for its root group,
    and [totalGroups + totalPoints] further nodes. *)
Theorem summary_totals (g : Group) :
  (SummaryFigures.totalGroups g + 1 = ModelSummary.countGroups g)%nat
  ∧ SummaryFigures.totalGroups g
    = sum_list ((fun sub => 1 + SummaryFigures.totalGroups sub)%nat
                <$> orEmpty (g_groups g))
  ∧ SummaryFigures.totalPoints g
    = (length (orEmpty (g_points g))
       + sum_list (SummaryFigures.totalPoints <$> orEmpty (g_groups g)))%nat
  ∧ ∀ expandedNodes model,
      m_group model = Some g →
      length (treeNodes (TreeView.buildTree expandedNodes model))
      = (2 + SummaryFigures.totalGroups g + SummaryFigures.totalPoints g)%nat.
Proof.
  assert (Hpos : ∀ g', (SummaryFigures.totalGroups g' + 1
                        = ModelSummary.countGroups g')%nat).
  { intros g'. unfold SummaryFigures.totalGroups. rewrite countGroups_eq. lia. }
  split; [apply Hpos|]. split; [|split].
  - unfold SummaryFigures.totalGroups at 1. rewrite countGroups_eq.
    replace (1 + sum_list (ModelSummary.countGroups <$> orEmpty (g_groups g)) - 1)%nat
      with (sum_list (ModelSummary.countGroups <$> orEmpty (g_groups g))) by lia.
    f_equal. apply list_fmap_ext. intros _ sub _. specialize (Hpos sub). lia.
  - unfold SummaryFigures.totalPoints at 1. by rewrite countPoints_eq.
  - intros expandedNodes model Hg. rewrite nodes_buildTree, Hg. cbn [length].
    rewrite <- (length_fmap node_data), group_nodes_data, entities_length.
    specialize (Hpos g). unfold SummaryFigures.totalPoints. lia.
Qed.

(** ** Parents and children in the built tree *)

Lemma group_nodes_children (expandedNodes : gset string) g :
  ∀ P name label level n c,
    n ∈ treeNodes (TreeView.createGroupNode expandedNodes P name label g level) →
    c ∈ children n →
    node_level c = S (node_level n)
    ∧ (∃ kind index,
         node_id c = node_id n +:+ kind +:+ JS.ofNat index
         ∧ (kind = "_point_" ∧ node_type c = TPoint
            ∧ children n !! index = Some c
            ∨ kind = "_group_" ∧ node_type c = TGroup
              ∧ children n !! (length (filter isPointNode (children n)) + index)%nat
                = Some c))
    ∧ node_type n = TGroup.
Proof.
  induction g as [gn gt gl gd points groups IH] using Group_nested_ind.
  intros P name label level n c Hn Hc.
  rewrite nodes_createGroupNode in Hn.
  apply elem_of_cons in Hn as [->|Hn]; [|apply elem_of_app in Hn as [Hn|Hn]].
  - destruct (createGroupNode_fields expandedNodes P name label
                (mkGroup gn gt gl gd points groups) level)
      as (Hid & _ & _ & Hty & _ & _ & Hlvl).
    rewrite Hid, Hty, Hlvl. rewrite createGroupNode_children in Hc |- *.
    cbn [g_points g_groups] in Hc |- *.
    rewrite filter_app, pointChildren_points.
    assert (Hnogroup : filter isPointNode
                         (groupChildren expandedNodes P level (orEmpty groups)) = []).
    { apply filter_none, Forall_imap. intros i x _.
      unfold isPointNode.
      by destruct (createGroupNode_fields expandedNodes
                     (P +:+ "_group_" +:+ JS.ofNat i) (g_name x) (g_label x) x (level + 1))
        as (_ & _ & _ & -> & _). }
    rewrite Hnogroup, app_nil_r.
    apply elem_of_app in Hc as [Hc|Hc].
    + apply elem_of_lookup_imap_1 in Hc as (i & p & -> & Hp).
      cbn [node_level node_id node_type TreeView.createPointNode].
      split; [lia|]. split; [|done].
      exists "_point_", i. split; [done|]. left. split; [done|]. split; [done|].
      rewrite lookup_app_l
        by (unfold pointChildren; rewrite length_imap; by eapply lookup_lt_Some).
      by apply pointChildren_lookup.
    + apply elem_of_lookup_imap_1 in Hc as (j & g' & -> & Hg').
      destruct (createGroupNode_fields expandedNodes
                  (P +:+ "_group_" +:+ JS.ofNat j) (g_name g') (g_label g') g' (level + 1))
        as (Hid' & _ & _ & Hty' & _ & _ & Hlvl').
      rewrite Hid', Hty', Hlvl'.
      split; [lia|]. split; [|done].
      exists "_group_", j. split; [done|]. right. split; [done|]. split; [done|].
      rewrite lookup_app_r by lia.
      replace (length (pointChildren expandedNodes P level (orEmpty points)) + j
               - length (pointChildren expandedNodes P level (orEmpty points)))%nat
        with j by lia.
      by apply groupChildren_lookup.
  - apply elem_of_lookup_imap_1 in Hn as (i & p & -> & Hp).
    cbn [children TreeView.createPointNode] in Hc. by apply elem_of_nil in Hc.
  - apply list_elem_of_join in Hn as (l & Hn & Hl).
    apply elem_of_lookup_imap_1 in Hl as (j & g' & -> & Hg').
    rewrite Forall_forall in IH.
    by apply (IH g' (list_elem_of_lookup_2 _ _ _ Hg') _ _ _ _ _ _ Hn).
Qed.

(** X8. In the tree built for a model every child is one level below its
    parent, and its id is the id of the parent followed by [_group] (below
    the model node), by [_point_] and its index among the points, or by
    [_group_] and its index among the nested groups of the parent; the
    children of a group node are its point nodes followed by its group
    nodes. Only the model node and group nodes have children: a point node
    is a leaf. *)
Theorem buildTree_parent_child (expandedNodes : gset string) (model : SunSpecModel)
    (n c : TreeNode) :
  n ∈ treeNodes (TreeView.buildTree expandedNodes model) →
  c ∈ children n →
  node_level c = S (node_level n)
  ∧ node_type n ≠ TPoint
  ∧ ((node_type n = TModel ∧ node_type c = TGroup
      ∧ node_id n = "root" ∧ node_id c = "root_group" ∧ children n = [c])
     ∨ (node_type n = TGroup
        ∧ ∃ kind index,
            node_id c = node_id n +:+ kind +:+ JS.ofNat index
            ∧ (kind = "_point_" ∧ node_type c = TPoint
               ∧ children n !! index = Some c
               ∨ kind = "_group_" ∧ node_type c = TGroup
                 ∧ children n !! (length (filter isPointNode (children n)) + index)%nat
                   = Some c))).
Proof.
  intros Hn Hc. rewrite nodes_buildTree in Hn.
  apply elem_of_cons in Hn as [->|Hn].
  - rewrite buildTree_children in Hc |- *.
    destruct (m_group model) as [g|]; [|by apply elem_of_nil in Hc].
    apply list_elem_of_singleton in Hc as ->.
    destruct (createGroupNode_fields expandedNodes "root_group" (g_name g) (g_label g) g 1)
      as (Hid & _ & _ & Hty & _ & _ & Hlvl).
    rewrite Hid, Hty, Hlvl. split; [done|]. split; [done|]. by left.
  - destruct (m_group model) as [g|]; [|by apply elem_of_nil in Hn].
    destruct (group_nodes_children _ _ _ _ _ _ _ _ Hn Hc) as (Hlvl & Hkind & Hty).
    split; [done|]. split; [by rewrite Hty|]. right. by split.
Qed.

Lemma buildTree_parent_child_witness :
  ∃ n c, n ∈ treeNodes sampleTree ∧ c ∈ children n
         ∧ node_id c = "root_group_group_0" ∧ node_level c = S (node_level n).
Proof.
  exists (default sampleTree (treeNodes sampleTree !! 1%nat)),
         (default sampleTree (treeNodes sampleTree !! 4%nat)).
  split; [by vm_compute; set_solver|]. split; [by vm_compute; set_solver|].
  split; [reflexivity|].
  apply (buildTree_parent_child {["root"]} sampleModel
           (default sampleTree (treeNodes sampleTree !! 1%nat))
           (default sampleTree (treeNodes sampleTree !! 4%nat)));
    vm_compute; set_solver.
Defined.

(** ** The search of the model list *)

Lemma matchesModel_spec term m :
  ModelList.matchesModel term m = true
  ↔ occursIgnoringCase term (mi_name m)
    ∨ (∃ l, mi_label m = Some l ∧ occursIgnoringCase term l)
    ∨ (∃ d, mi_desc m = Some d ∧ occursIgnoringCase term d)
    ∨ ∃ pre post, JS.ofZ (mi_id m) = pre +:+ term +:+ post.
Proof.
  unfold ModelList.matchesModel.
  rewrite !orb_true_iff, includes_ignoring_case, !optIncludes_spec, includes_spec.
  tauto.
Qed.

Lemma matchesModel_refine term term' m :
  JS.includes term term' = true →
  ModelList.matchesModel term m = true → ModelList.matchesModel term' m = true.
Proof.
  intros Hsub. unfold ModelList.matchesModel. rewrite !orb_true_iff.
  intros [[[H|H]|H]|H].
  - left. left. left. eapply includes_trans; [exact H|]. by apply includes_toLowerCase.
  - left. left. right. by eapply optIncludes_refine.
  - left. right. by eapply optIncludes_refine.
  - right. by eapply includes_trans.
Qed.

Lemma occursIgnoringCase_refl s : occursIgnoringCase s s.
Proof. exists "", s, "". by rewrite str_app_empty_r. Qed.

Lemma occursIgnoringCase_empty s : occursIgnoringCase "" s.
Proof. by exists "", "", s. Qed.

(** X9. The search of the model list keeps the models, in catalog order,
    in whose name, label or description the term occurs when letter case is
    ignored, or in whose decimal id the term occurs as typed; the empty term
    keeps all. Searching the result again with the same term changes
    nothing, every model is found by its own name and by its own id, and a
    term that contains another one finds a subsequence of what the other
    one finds. *)
Theorem filteredModels_spec (models : list ModelInfo) (searchTerm : string) :
  sublist (ModelList.filteredModels models searchTerm) models
  ∧ ModelList.filteredModels models "" = models
  ∧ (∀ m, m ∈ ModelList.filteredModels models searchTerm
          ↔ m ∈ models
            ∧ (occursIgnoringCase searchTerm (mi_name m)
               ∨ (∃ l, mi_label m = Some l ∧ occursIgnoringCase searchTerm l)
               ∨ (∃ d, mi_desc m = Some d ∧ occursIgnoringCase searchTerm d)
               ∨ ∃ pre post, JS.ofZ (mi_id m) = pre +:+ searchTerm +:+ post))
  ∧ ModelList.filteredModels (ModelList.filteredModels models searchTerm) searchTerm
    = ModelList.filteredModels models searchTerm
  ∧ (∀ m, m ∈ models →
          m ∈ ModelList.filteredModels models (mi_name m)
          ∧ m ∈ ModelList.filteredModels models (JS.ofZ (mi_id m)))
  ∧ (∀ longer, JS.includes longer searchTerm = true →
               sublist (ModelList.filteredModels models longer)
                       (ModelList.filteredModels models searchTerm)).
Proof.
  assert (Hmem : ∀ term m, m ∈ ModelList.filteredModels models term
          ↔ m ∈ models
            ∧ (occursIgnoringCase term (mi_name m)
               ∨ (∃ l, mi_label m = Some l ∧ occursIgnoringCase term l)
               ∨ (∃ d, mi_desc m = Some d ∧ occursIgnoringCase term d)
               ∨ ∃ pre post, JS.ofZ (mi_id m) = pre +:+ term +:+ post)).
  { intros term m. unfold ModelList.filteredModels.
    destruct (String.eqb_spec term "") as [->|Hne].
    - split; [|tauto]. intros Hm. split; [done|]. left. apply occursIgnoringCase_empty.
    - by rewrite list_elem_of_filter, matchesModel_spec, (comm and). }
  assert (Hsub : ∀ term, sublist (ModelList.filteredModels models term) models).
  { intros term. unfold ModelList.filteredModels.
    destruct (String.eqb term ""); [done|apply sublist_filter]. }
  split; [apply Hsub|]. split; [done|]. split; [apply Hmem|].
  split; [|split].
  - unfold ModelList.filteredModels. destruct (String.eqb searchTerm ""); [done|].
    apply filter_all, Forall_forall. intros m Hm.
    by apply list_elem_of_filter in Hm as [Hm _].
  - intros m Hm. split; apply Hmem; (split; [done|]).
    + left. apply occursIgnoringCase_refl.
    + do 3 right. exists "", "". by rewrite str_app_empty_r.
  - intros longer Hlonger. unfold ModelList.filteredModels at 2.
    destruct (String.eqb_spec searchTerm "") as [->|Hne]; [apply Hsub|].
    unfold ModelList.filteredModels.
    destruct (String.eqb_spec longer "") as [->|Hne'].
    + apply includes_empty_l in Hlonger. contradiction.
    + apply filter_sublist_impl. intros m. by apply matchesModel_refine.
Qed.

(** ** Loading the catalog *)

Section RankFacts.
Import GitHubService.

Lemma categoryRank_key id : tableKeys !! categoryRank id = Some (categoryKey id).
Proof.
  unfold categoryRank, categoryKey, tableKeys.
  repeat (destruct (_ <? _)%Z; [reflexivity|]). reflexivity.
Qed.

Lemma categoryRank_lt id : (categoryRank id < 10)%nat.
Proof.
  unfold categoryRank.
  repeat (destruct (_ <? _)%Z; [lia|]). lia.
Qed.

Lemma categoryRank_mono a b : (a ≤ b)%Z → (categoryRank a ≤ categoryRank b)%nat.
Proof.
  intros Hab. unfold categoryRank.
  repeat match goal with
         | |- context [Z.ltb ?x ?y] => destruct (Z.ltb_spec x y)
         end; lia.
Qed.

Lemma inCategory_rank r key m :
  tableKeys !! r = Some key → inCategory key m ↔ categoryRank (mi_id m) = r.
Proof.
  intros Hr. unfold inCategory. pose proof (categoryRank_key (mi_id m)) as Hm.
  split.
  - intros Heq. rewrite Heq in Hm.
    by apply (NoDup_lookup _ _ _ _ tableKeys_NoDup Hm Hr).
  - intros <-. congruence.
Qed.

Lemma categorizeModels_keys ms :
  (categorizeModels ms).*1 = filter (fun key => Exists (inCategory key) ms) tableKeys.
Proof.
  rewrite categorizeModels_eq, <- list_fmap_compose. unfold tableKeys.
  generalize emptyCategories. intros l.
  induction l as [|kc l IH]; [done|]. csimpl. rewrite !filter_cons. simpl.
  destruct (decide (Exists (inCategory kc.1) ms)); csimpl; by rewrite IH.
Qed.

Lemma categorizeModels_join ms :
  mjoin ((fun kc => models kc.2) <$> categorizeModels ms)
  = mjoin ((fun key => filter (inCategory key) ms) <$> tableKeys).
Proof.
  rewrite categorizeModels_eq, <- list_fmap_compose. unfold compose.
  cbn [models snd].
  rewrite (join_drop_empty (fun kc : string * Category => filter (inCategory kc.1) ms)).
  - unfold tableKeys. by rewrite <- list_fmap_compose.
  - intros kc _ Hno. by apply Exists_filter_nil.
Qed.

End RankFacts.

Section SortedBuckets.
Context {A : Type} (rank : A → nat).

Lemma sorted_bucket_split (l : list A) (c : nat) :
  StronglySorted (fun a b => rank a ≤ rank b)%nat l →
  filter (fun x => rank x < c)%nat l ++ filter (fun x => rank x = c) l
  = filter (fun x => rank x < S c)%nat l.
Proof.
  induction 1 as [|x l Hsorted IH Hx]; [done|].
  rewrite !filter_cons.
  destruct (decide (rank x < c)%nat) as [Hlt|Hge].
  - rewrite decide_False by lia. rewrite decide_True by lia.
    simpl. by rewrite IH.
  - destruct (decide (rank x = c)) as [Heq|Hne].
    + rewrite decide_True by lia. rewrite <- IH.
      rewrite (filter_none (fun x => rank x < c)%nat l); [done|].
      eapply Forall_impl; [exact Hx|]. simpl. intros y Hy. lia.
    + rewrite decide_False by lia. exact IH.
Qed.

Lemma sorted_buckets_join (l : list A) (n : nat) :
  StronglySorted (fun a b => rank a ≤ rank b)%nat l →
  mjoin ((fun r => filter (fun x => rank x = r) l) <$> seq 0 n)
  = filter (fun x => rank x < n)%nat l.
Proof.
  intros Hsorted. induction n as [|n IH].
  - simpl. symmetry. apply filter_none, Forall_forall. intros x _. lia.
  - rewrite seq_S, fmap_app, join_app, IH. simpl. rewrite app_nil_r.
    by apply sorted_bucket_split.
Qed.

End SortedBuckets.

Lemma StronglySorted_impl {A} (R1 R2 : A → A → Prop) (l : list A) :
  (∀ a b, R1 a b → R2 a b) → StronglySorted R1 l → StronglySorted R2 l.
Proof.
  intros HR. induction 1 as [|x l _ IH Hx]; constructor; [done|].
  eapply Forall_impl; [exact Hx|]. apply HR.
Qed.

Lemma filter_ext_iff {A} (P Q : A → Prop) `{∀ x, Decision (P x)}
    `{∀ x, Decision (Q x)} (l : list A) :
  (∀ x, P x ↔ Q x) → filter P l = filter Q l.
Proof.
  intros HPQ. induction l as [|x l IH]; [done|].
  rewrite !filter_cons, IH.
  destruct (decide (P x)) as [HP|HP], (decide (Q x)) as [HQ|HQ]; try done;
    by apply HPQ in HP || by apply HPQ in HQ.
Qed.

Lemma categorizeModels_sorted ms :
  StronglySorted (fun a b => (mi_id a ≤ mi_id b)%Z) ms →
  mjoin ((fun kc => GitHubService.models kc.2) <$> GitHubService.categorizeModels ms) = ms
  ∧ head (GitHubService.categorizeModels ms).*1
    = (fun m => GitHubService.categoryKey (mi_id m)) <$> head ms.
Proof.
  intros Hsorted.
  assert (Hrank : StronglySorted
            (fun a b => categoryRank (mi_id a) ≤ categoryRank (mi_id b))%nat ms).
  { eapply StronglySorted_impl; [|exact Hsorted]. intros a b. apply categoryRank_mono. }
  split.
  - rewrite categorizeModels_join.
    transitivity (mjoin ((fun r => filter (fun m => categoryRank (mi_id m) = r) ms)
                         <$> seq 0 10)).
    + f_equal. change (seq 0 10) with (fst <$> imap (fun i key => (i, key)) tableKeys).
      assert (Hkeys : tableKeys = snd <$> imap (fun i key => (i, key)) tableKeys)
        by reflexivity.
      rewrite Hkeys at 1. rewrite <- !list_fmap_compose.
      apply list_fmap_ext. intros _ [r key] Hr%list_elem_of_lookup_2.
      apply elem_of_lookup_imap_1 in Hr as (i & k & [= -> ->] & Hk).
      simpl. apply filter_ext_iff. intros m. by apply inCategory_rank.
    + rewrite (sorted_buckets_join (fun m => categoryRank (mi_id m)) ms 10 Hrank).
      apply filter_all, Forall_forall. intros m _. apply categoryRank_lt.
  - rewrite categorizeModels_keys.
    destruct ms as [|m0 rest]; [done|]. simpl.
    apply StronglySorted_inv in Hrank as [_ Hrest].
    pose proof (categoryRank_key (mi_id m0)) as Hkey.
    rewrite <- (take_drop_middle _ _ _ Hkey), filter_app.
    rewrite (filter_none _ (take _ _)).
    + rewrite filter_cons_True; [done|]. by apply Exists_cons_hd.
    + apply Forall_forall. intros key Hin Hex.
      apply list_elem_of_lookup in Hin as [i Hi].
      apply lookup_take_Some in Hi as [Hi Hlt].
      apply Exists_exists in Hex as (m & Hm & Hcat).
      apply (inCategory_rank i) in Hcat; [|done].
      apply elem_of_cons in Hm as [->|Hm]; [lia|].
      rewrite Forall_forall in Hrest. specialize (Hrest m Hm). lia.
Qed.

(** X10. [loadModels] shows one and the same message,
    "Failed to load models from GitHub", whenever the listing request fails,
    whatever the cause (no answer, a status that is not ok, a body that is
    not JSON): the status text and the message of [getModelList] never reach
    the state, and the catalog, the categories and the expanded categories
    are left as they were. When the listing succeeds no error is recorded,
    whatever happens to the requests for the documents: the catalog then
    holds the entries that could be loaded, and is the one that
    [getAllModelsWithMetadata] returns. In both cases [isLoading] ends
    [false]. *)
Theorem loadModels_outcome (response : Requests.ListResponse)
    (getModel : string → option GitHubService.ModelData) (st : ModelList.ListState) :
  let st' := ModelList.loadModels
               (Requests.getAllModelsWithMetadata response getModel) st in
  ModelList.isLoading st' = false
  ∧ ((∀ files, response ≠ Requests.ListOk files) →
     ModelList.error st' = "Failed to load models from GitHub"
     ∧ ModelList.models st' = ModelList.models st
     ∧ ModelList.categorizedModels st' = ModelList.categorizedModels st
     ∧ ModelList.expandedCategories st' = ModelList.expandedCategories st)
  ∧ (∀ files, response = Requests.ListOk files →
       ModelList.error st' = ""
       ∧ GitHubService.getAllModelsWithMetadata (Some files) getModel
         = Some (ModelList.models st')
       ∧ ModelList.models st'
         ≡ₚ omap (GitHubService.loadOne getModel) (GitHubService.getModelList files)
       ∧ ModelList.categorizedModels st'
         = GitHubService.categorizeModels (ModelList.models st')).
Proof.
  intros st'. subst st'. split; [by destruct response|]. split.
  - intros Hfail. destruct response as [| | |files]; try done. by destruct (Hfail files).
  - intros files ->. cbn. split; [done|]. split; [done|]. split; [|done].
    rewrite omap_id_fmap. apply (sort_perm mi_id).
Qed.

(** X11. After a successful load the category view lists the catalog in its
    own order: the member lists of the categories, one after the other, are
    the catalog in ascending id order, nothing lost and nothing twice. The
    one category that is expanded is the category of the first catalog
    entry, the one with the smallest id; with an empty catalog there is no
    category and the expanded categories are left as they were. *)
Theorem loadModels_categories_in_order (files : list GitHubService.GitHubFile)
    (getModel : string → option GitHubService.ModelData) (st : ModelList.ListState) :
  let st' := ModelList.loadModels
               (Requests.getAllModelsWithMetadata (Requests.ListOk files) getModel) st in
  StronglySorted (fun a b => (mi_id a ≤ mi_id b)%Z) (ModelList.models st')
  ∧ mjoin ((fun kc => GitHubService.models kc.2) <$> ModelList.categorizedModels st')
    = ModelList.models st'
  ∧ match ModelList.models st' with
    | first :: _ =>
        ModelList.expandedCategories st'
        = {[GitHubService.categoryKey (mi_id first)]}
    | [] =>
        ModelList.categorizedModels st' = []
        ∧ ModelList.expandedCategories st' = ModelList.expandedCategories st
    end.
Proof.
  intros st'. subst st'. cbn [Requests.getAllModelsWithMetadata Requests.getModelList].
  cbv zeta. cbn [ModelList.loadModels ModelList.models ModelList.categorizedModels
                 ModelList.expandedCategories].
  set (ms := JS.sort GitHubService.byId _).
  assert (Hsorted : StronglySorted (fun a b => (mi_id a ≤ mi_id b)%Z) ms)
    by apply (sort_sorted mi_id).
  destruct (categorizeModels_sorted ms Hsorted) as [Hjoin Hhead].
  split; [done|]. split; [done|].
  destruct ms as [|first rest].
  - by vm_compute.
  - destruct ((GitHubService.categorizeModels (first :: rest)).*1) as [|key keys];
      [discriminate Hhead|].
    by injection Hhead as ->.
Qed.

(** ** File names: extension, stem and number *)

Section SuffixFacts.

Lemma rev_app_acc s :
  ∀ acc, String.rev_app s acc = String.rev_app s "" +:+ acc.
Proof.
  induction s as [|c s IH]; intros acc; [done|].
  simpl. rewrite (IH (String c acc)), (IH (String c "")).
  by rewrite str_app_assoc.
Qed.

Lemma rev_append a b : String.rev (a +:+ b) = String.rev b +:+ String.rev a.
Proof.
  unfold String.rev. induction a as [|c a IH]; simpl.
  - by rewrite str_app_empty_r.
  - rewrite (rev_app_acc (a +:+ b)), (rev_app_acc a), IH.
    by rewrite str_app_assoc.
Qed.

Lemma rev_rev_app s :
  ∀ acc acc', String.rev_app (String.rev_app s acc) acc' = String.rev_app acc (s +:+ acc').
Proof.
  induction s as [|c s IH]; intros acc acc'; [done|].
  simpl. by rewrite IH.
Qed.

Lemma rev_involutive s : String.rev (String.rev s) = s.
Proof. unfold String.rev. rewrite rev_rev_app. simpl. apply str_app_empty_r. Qed.

Lemma endsWith_spec s p : JS.endsWith s p = true ↔ ∃ r, s = r +:+ p.
Proof.
  unfold JS.endsWith. rewrite startsWith_spec. split.
  - intros [r Hr]. exists (String.rev r).
    rewrite <- (rev_involutive s), Hr, rev_append. by rewrite rev_involutive.
  - intros [r ->]. exists (String.rev r). apply rev_append.
Qed.

Lemma startsWith_json_stem c stem rest :
  JS.startsWith (String c stem) ".json" = false →
  JS.startsWith (String c (stem +:+ ".json" +:+ rest)) ".json" = false.
Proof.
  intros Hhead.
  destruct (JS.startsWith (String c (stem +:+ ".json" +:+ rest)) ".json") eqn:H; [|done].
  exfalso. apply startsWith_spec in H as [r Hr].
  destruct stem as [|c1 [|c2 [|c3 [|c4 stem]]]]; simpl in Hr; simplify_eq.
Qed.

Lemma replace_cons c s pat rep :
  JS.replace (String c s) pat rep
  = if JS.startsWith (String c s) pat
    then rep +:+ JS.drop (String.length pat) (String c s)
    else String c (JS.replace s pat rep).
Proof. reflexivity. Qed.

Lemma replace_json_stem stem rest :
  JS.includes stem ".json" = false →
  JS.replace (stem +:+ ".json" +:+ rest) ".json" "" = stem +:+ rest.
Proof.
  induction stem as [|c stem IH]; [done|].
  intros Hc. cbn [JS.includes] in Hc. apply orb_false_iff in Hc as [Hhead Htail].
  change (String c stem +:+ ".json" +:+ rest)
    with (String c (stem +:+ ".json" +:+ rest)).
  rewrite replace_cons, (startsWith_json_stem c stem rest Hhead), (IH Htail).
  reflexivity.
Qed.

Lemma includes_false_refine s p q :
  JS.includes p q = true → JS.includes s q = false → JS.includes s p = false.
Proof.
  intros Hpq Hsq. destruct (JS.includes s p) eqn:Hsp; [|done].
  by rewrite (includes_trans _ _ _ Hsp Hpq) in Hsq.
Qed.

Lemma allDigits_no_dot ds : JS.allDigits ds = true → JS.includes ds "." = false.
Proof.
  induction ds as [|c ds IH]; [done|].
  cbn [JS.allDigits JS.includes JS.startsWith]. intros [Hc Hds]%andb_true_iff.
  rewrite (IH Hds), orb_false_r.
  destruct (ascii_dec "." c) as [<-|]; [discriminate Hc|done].
Qed.

Lemma parseDigits_of_uint d :
  ∀ acc,
    fold_left (fun acc c => 10 * acc + JS.digitValue c)%Z
      (list_ascii_of_string (NilEmpty.string_of_uint d)) (Z.of_nat acc)
    = Z.of_nat (Nat.of_uint_acc d acc).
Proof.
  induction d as [|d IH|d IH|d IH|d IH|d IH|d IH|d IH|d IH|d IH|d IH];
    intros acc; [done|..];
    cbn [NilEmpty.string_of_uint list_ascii_of_string fold_left Nat.of_uint_acc];
    rewrite <- IH; f_equal; rewrite Nat.tail_mul_spec;
    match goal with
    | |- context [JS.digitValue ?c] =>
        let v := eval vm_compute in (JS.digitValue c) in
        change (JS.digitValue c) with v
    end; lia.
Qed.

Lemma parseDigits_ofNat n : JS.parseDigits (JS.ofNat n) = Z.of_nat n.
Proof.
  unfold JS.parseDigits, JS.ofNat.
  assert (H : NilZero.string_of_uint (Nat.to_uint n)
              = NilEmpty.string_of_uint (Nat.to_uint n)).
  { pose proof (to_uint_nonnil n). by destruct (Nat.to_uint n). }
  rewrite H.
  etransitivity; [apply (parseDigits_of_uint (Nat.to_uint n) 0%nat)|].
  f_equal. apply DecimalNat.Unsigned.of_to.
Qed.

Lemma ofNat_nonempty n : JS.ofNat n ≠ "".
Proof.
  unfold JS.ofNat. pose proof (to_uint_nonnil n). by destruct (Nat.to_uint n).
Qed.

End SuffixFacts.

Section CanonicalNames.
Import GitHubService.

(** X12. Round trip of the file-name convention: for the file name
    [model_<n>.json], with [n] written in decimal and at most 2^53 (the
    range in which [parseInt] is exact), and any document that is not
    [null], the catalog entry has the id [n] and the name [model_<n>],
    whatever id the document itself carries; the name followed by [.json] is
    the file name again, and the file name passes the filter of
    [getModelList]. *)
Theorem extractModelInfo_canonical (n : nat) (modelData : ModelData) :
  modelData ≠ JNull →
  (Z.of_nat n ≤ 2 ^ 53)%Z →
  let filename := "model_" +:+ JS.ofNat n +:+ ".json" in
  ∃ info,
    extractModelInfo filename modelData = Some info
    ∧ i_id info = Z.of_nat n
    ∧ i_name info = "model_" +:+ JS.ofNat n
    ∧ i_name info +:+ ".json" = filename
    ∧ JS.endsWith filename ".json" = true.
Proof.
  intros Hd Hexact filename. rewrite (extractModelInfo_unfold _ _ Hd).
  eexists. split; [reflexivity|]. cbn [i_id i_name].
  assert (Hname : JS.replace filename ".json" "" = "model_" +:+ JS.ofNat n).
  { subst filename.
    rewrite <- (str_app_empty_r ".json"), <- !str_app_assoc, (str_app_assoc _ ".json").
    rewrite replace_json_stem; [apply str_app_empty_r|].
    apply (includes_false_refine _ ".json" "."); [reflexivity|].
    cbn. apply allDigits_no_dot, allDigits_ofNat. }
  assert (Hmatch : regexMatch filename = Some (JS.ofNat n)).
  { apply (regexMatch_leftmost filename "").
    - exists "". subst filename. rewrite str_app_empty_r.
      split; [done|]. split; [apply ofNat_nonempty|apply allDigits_ofNat].
    - intros pre' ds' _. simpl. lia. }
  rewrite Hmatch, Hname. split; [apply parseDigits_ofNat|]. split; [done|].
  split; [by rewrite str_app_assoc|].
  apply endsWith_spec. exists ("model_" +:+ JS.ofNat n). by rewrite str_app_assoc.
Qed.

Lemma extractModelInfo_canonical_witness :
  ∃ info,
    extractModelInfo "model_103.json" (JObject (Some 7%Z) None None None) = Some info
    ∧ i_id info = 103%Z ∧ i_name info = "model_103".
Proof.
  destruct (extractModelInfo_canonical 103 (JObject (Some 7%Z) None None None))
    as (info & Hinfo & Hid & Hname & _); [done|by vm_compute|].
  exists info. split; [exact Hinfo|]. split; [exact Hid|exact Hname].
Defined.

(** X13. For a file name made of a stem in which [.json] does not occur,
    followed by [.json], the name of the catalog entry is the stem: the
    extension is what [replace] removes, and the name followed by [.json]
    gives the file name back. *)
Theorem extractModelInfo_name_stem (stem : string) (modelData : ModelData) :
  JS.includes stem ".json" = false →
  modelData ≠ JNull →
  ∃ info,
    extractModelInfo (stem +:+ ".json") modelData = Some info
    ∧ i_name info = stem
    ∧ i_name info +:+ ".json" = stem +:+ ".json"
    ∧ i_name info = stripTrailingJson (stem +:+ ".json").
Proof.
  intros Hstem Hd. rewrite (extractModelInfo_unfold _ _ Hd).
  eexists. split; [reflexivity|]. cbn [i_name].
  assert (Hname : JS.replace (stem +:+ ".json") ".json" "" = stem).
  { rewrite <- (str_app_empty_r ".json") at 1.
    rewrite replace_json_stem by done. apply str_app_empty_r. }
  rewrite Hname. split; [done|]. split; [done|].
  unfold stripTrailingJson.
  assert (Hends : JS.endsWith (stem +:+ ".json") ".json" = true)
    by (apply endsWith_spec; by exists stem).
  rewrite Hends, rev_append.
  change (JS.drop 5 (String.rev ".json" +:+ String.rev stem)) with (String.rev stem).
  by rewrite rev_involutive.
Qed.

Lemma extractModelInfo_name_stem_witness :
  ∃ info,
    extractModelInfo "inverter.v2.json" JOther = Some info
    ∧ i_name info = "inverter.v2".
Proof.
  destruct (extractModelInfo_name_stem "inverter.v2" JOther)
    as (info & Hinfo & Hname & _); [reflexivity|done|].
  exists info. split; [exact Hinfo|exact Hname].
Defined.

End CanonicalNames.

(** ** The catalog and the selection of its entries *)

Section CatalogFacts.
Import GitHubService App.
Variable getModel : string → option ModelData.

Lemma loadOne_filename file m : loadOne getModel file = Some m → mi_filename m = gf_name file.
Proof. intros (d & info & _ & _ & _ & ->)%loadOne_Some. done. Qed.

Lemma omap_loadOne_filenames (files : list GitHubFile) :
  mi_filename <$> omap (loadOne getModel) files
  = filter (fun name => fetchable getModel name = true) (gf_name <$> files).
Proof.
  induction files as [|file files IH]; [done|].
  cbn [omap list_omap]. rewrite fmap_cons, filter_cons.
  pose proof (loadOne_fetchable getModel file) as Hfetch.
  destruct (loadOne getModel file) as [m|] eqn:Hm.
  - rewrite decide_True by (apply Hfetch; by eexists).
    rewrite fmap_cons, IH. f_equal. by apply loadOne_filename.
  - rewrite decide_False; [exact IH|].
    intros H. apply Hfetch in H as [? [=]].
Qed.

End CatalogFacts.

(** X14. Selecting an entry of the catalog, the requests answering as they
    did when the catalog was loaded: the entry comes from a listed file whose
    name ends in [.json] and whose document was fetched and is not [null],
    so the selection raises neither the transport error nor a [TypeError];
    it succeeds exactly when the document has an [id] other than 0 and a
    group, and raises the validation error otherwise. The catalog does not
    examine the documents: an entry whose document has no [id] or no group
    is listed all the same and cannot be opened. *)
Theorem catalog_entry_selection (files : list GitHubService.GitHubFile)
    (getModel : string → option GitHubService.ModelData)
    (result : list ModelInfo) (m : ModelInfo) :
  GitHubService.getAllModelsWithMetadata (Some files) getModel = Some result →
  m ∈ result →
  ∃ file d,
    file ∈ files ∧ mi_filename m = GitHubService.gf_name file
    ∧ (∃ stem, mi_filename m = stem +:+ ".json")
    ∧ getModel (mi_filename m) = Some d ∧ d ≠ GitHubService.JNull
    ∧ GitHubService.extractModelInfo (mi_filename m) d
      = Some (GitHubService.mkInfo (mi_id m) (mi_name m) (mi_label m) (mi_desc m))
    ∧ (App.raised (App.handleModelSelect getModel m) = None
       ↔ ∃ id g, GitHubService.propId d = Some id ∧ id ≠ 0%Z
                 ∧ GitHubService.propGroup d = Some g)
    ∧ (App.raised (App.handleModelSelect getModel m) = Some App.ValidationFailure
       ↔ failsValidation d)
    ∧ (App.raised (App.handleModelSelect getModel m) = None
       ∨ App.raised (App.handleModelSelect getModel m) = Some App.ValidationFailure).
Proof.
  unfold GitHubService.getAllModelsWithMetadata. cbv zeta. intros [= <-] Hm.
  rewrite omap_id_fmap in Hm.
  rewrite (sort_perm mi_id) in Hm.
  apply list_elem_of_omap in Hm as (file & Hfile & Hload).
  apply list_elem_of_filter in Hfile as [Hjson Hfile].
  apply loadOne_Some in Hload as (d & info & Hd & Hnull & Hinfo & ->).
  exists file, d. cbn [mi_filename mi_id mi_name mi_label mi_desc].
  split; [done|]. split; [done|]. split; [by apply endsWith_spec|].
  split; [done|]. split; [done|]. split; [by destruct info|].
  rewrite raised_handleModelSelect. unfold App.fetchAndValidate.
  cbn [mi_filename]. rewrite Hd.
  assert (Hcases : (∃ m', App.validate d = inr m')
                   ∨ App.validate d = inl App.ValidationFailure).
  { destruct d as [| |[id|] [g|] label desc]; [by destruct Hnull|..]; simpl; eauto.
    destruct (id =? 0)%Z; eauto. }
  assert (Hfails : failsValidation d ↔ App.validate d = inl App.ValidationFailure).
  { unfold failsValidation.
    destruct d as [| |[id|] [g|] label desc]; [by destruct Hnull|..]; simpl;
      try (split; [done|]; tauto).
    destruct (Z.eqb_spec id 0) as [->|Hne]; split; try done.
    - intros _. by right; left.
    - by intros [?|[[= ?]|?]]. }
  split; [|split].
  - destruct (App.validate d) as [err|m'] eqn:Hv.
    + split; [done|]. intros (id & g & Hid & Hne & Hg).
      assert (Hok : App.validate d = inr (mkModel id (Some g) (GitHubService.propLabel d)
                                            (GitHubService.propDesc d)))
        by (apply validate_inr; by exists id, g).
      congruence.
    + split; [|done]. intros _.
      apply validate_inr in Hv as (id & g & Hid & Hne & Hg & _). by exists id, g.
  - rewrite Hfails. destruct (App.validate d) as [err|m']; split; congruence.
  - destruct Hcases as [[m' ->]| ->]; [by left|by right].
Qed.

Lemma catalog_entry_selection_witness :
  ∃ m, m ∈ default [] (GitHubService.getAllModelsWithMetadata (Some sampleListing)
                         sampleGetModel)
       ∧ mi_filename m = "model_9.json"
       ∧ App.raised (App.handleModelSelect sampleGetModel m)
         = Some App.ValidationFailure.
Proof.
  exists (mkModelInfo 9 "model_9" None None "model_9.json").
  split; [by vm_compute; set_solver|]. split; [reflexivity|].
  destruct (catalog_entry_selection sampleListing sampleGetModel
              (default [] (GitHubService.getAllModelsWithMetadata (Some sampleListing)
                             sampleGetModel))
              (mkModelInfo 9 "model_9" None None "model_9.json"))
    as (file & d & _ & _ & _ & Hd & _ & _ & _ & Hfail & _);
    [reflexivity|by vm_compute; set_solver|].
  apply Hfail. injection Hd as <-. by right; right.
Defined.

(** X15. The catalog has one entry for each listed file whose name ends in
    [.json] and whose document could be fetched and is not [null]: the file
    names of the entries are those of these files, up to the order. It has
    at most as many entries as files were listed, and when the listed names
    are pairwise distinct so are the file names of the entries (which the
    model list uses as keys). *)
Theorem catalog_filenames (files : list GitHubService.GitHubFile)
    (getModel : string → option GitHubService.ModelData) :
  ∃ result,
    GitHubService.getAllModelsWithMetadata (Some files) getModel = Some result
    ∧ mi_filename <$> result
      ≡ₚ filter (fun name => JS.endsWith name ".json" = true
                             ∧ fetchable getModel name = true)
           (GitHubService.gf_name <$> files)
    ∧ (length result ≤ length files)%nat
    ∧ (NoDup (GitHubService.gf_name <$> files) → NoDup (mi_filename <$> result)).
Proof.
  eexists. split; [reflexivity|]. cbv zeta. rewrite omap_id_fmap.
  set (loaded := omap (GitHubService.loadOne getModel) (GitHubService.getModelList files)).
  assert (Hperm : JS.sort GitHubService.byId loaded ≡ₚ loaded) by apply (sort_perm mi_id).
  assert (Hnames : mi_filename <$> loaded
                   = filter (fun name => JS.endsWith name ".json" = true
                                         ∧ fetchable getModel name = true)
                       (GitHubService.gf_name <$> files)).
  { subst loaded. rewrite omap_loadOne_filenames. unfold GitHubService.getModelList.
    clear. induction files as [|file files IH]; [done|].
    rewrite fmap_cons, !filter_cons.
    destruct (decide (JS.endsWith (GitHubService.gf_name file) ".json" = true))
      as [Hj|Hj].
    - rewrite fmap_cons, filter_cons, IH.
      destruct (decide (fetchable getModel (GitHubService.gf_name file) = true))
        as [Hf|Hf].
      + by rewrite decide_True.
      + rewrite decide_False; [done|tauto].
    - rewrite IH. rewrite decide_False; [done|tauto]. }
  split; [by rewrite Hperm, Hnames|]. split.
  - rewrite Hperm, <- (length_fmap mi_filename), Hnames,
      <- (length_fmap GitHubService.gf_name files).
    apply length_filter.
  - intros Hnodup. rewrite Hperm, Hnames. by apply NoDup_filter.
Qed.

(** ** Sequences of actions in [App] *)

(** X16. Whatever catalog entries the user selects and however often the
    reset button is pressed, once a handler has run to its end: [isLoading]
    is false; a displayed model has an [id] other than 0 and a group (what
    the summary and the tree read without testing); a selection is recorded
    only together with a displayed model and an empty error; an error is
    shown only with no selection recorded. Pressing reset gives the initial
    state back. *)
Theorem session_invariant (actions : list Action) :
  let st := session actions in
  App.isLoading st = false
  ∧ (∀ m, App.model st = Some m → m_id m ≠ 0%Z ∧ ∃ g, m_group m = Some g)
  ∧ (is_Some (App.selectedModelInfo st) → is_Some (App.model st) ∧ App.error st = "")
  ∧ (App.error st ≠ "" → App.selectedModelInfo st = None)
  ∧ session (actions ++ [Reset]) = initialState.
Proof.
  cbv zeta.
  assert (Hinv : App.isLoading (session actions) = false
    ∧ (∀ m, App.model (session actions) = Some m →
            m_id m ≠ 0%Z ∧ ∃ g, m_group m = Some g)
    ∧ (is_Some (App.selectedModelInfo (session actions)) →
       is_Some (App.model (session actions)) ∧ App.error (session actions) = "")).
  { induction actions as [|a actions IH] using rev_ind.
    - split; [done|]. split; [done|]. by intros [? [=]].
    - unfold session in *. rewrite fold_left_app. cbn [fold_left].
      destruct IH as (Hload & Hmodel & Hsel).
      destruct (fold_left _ actions initialState) as [model sel err loading].
      cbn [App.isLoading App.model App.selectedModelInfo App.error] in *.
      destruct a as [getModel modelInfo|]; cbn [handle].
      + unfold App.handleModelSelect.
        destruct (App.fetchAndValidate getModel modelInfo) as [e|m] eqn:Hfetch; cbn.
        * split; [done|]. split; [done|]. by intros [? [=]].
        * split; [done|]. split; [|by split; [eexists|]].
          intros m' [= <-]. unfold App.fetchAndValidate in Hfetch.
          destruct (getModel (mi_filename modelInfo)) as [d|]; [|done].
          apply validate_inr in Hfetch as (id & g & _ & Hne & _ & ->). eauto.
      + cbn. split; [done|]. split; [done|]. by intros [? [=]]. }
  destruct Hinv as (Hload & Hmodel & Hsel).
  split; [done|]. split; [done|]. split; [done|]. split.
  - intros Herr. destruct (App.selectedModelInfo (session actions)) eqn:Hs; [|done].
    destruct Hsel as [_ Hnone]; [by eexists|]. contradiction.
  - unfold session in *. rewrite fold_left_app. cbn [fold_left handle].
    destruct (fold_left _ actions initialState) as [model sel err loading].
    cbn in Hload |- *. by rewrite Hload.
Qed.

(** ** Dropped and selected files *)

Lemma isJsonFile_spec file :
  FileUpload.isJsonFile file = true
  ↔ FileUpload.file_type file = "application/json"
    ∨ ∃ stem, FileUpload.file_name file = stem +:+ ".json".
Proof.
  unfold FileUpload.isJsonFile.
  by rewrite orb_true_iff, String.eqb_eq, endsWith_spec.
Qed.

(** X17. Of the files dropped on the upload area, the one handed on is the
    first, in drop order, whose type is [application/json] or whose name
    ends in [.json]; when no dropped file is of this kind, and in particular
    when nothing was dropped, no file is handed on. A file chosen through
    the file dialog is handed on without this test: the first chosen file,
    whatever its type and name. *)
Theorem handleDrop_spec (files : list FileUpload.File) :
  (FileUpload.handleDrop files = None
   ↔ ∀ file, file ∈ files →
             FileUpload.file_type file ≠ "application/json"
             ∧ ∀ stem, FileUpload.file_name file ≠ stem +:+ ".json")
  ∧ (∀ file, FileUpload.handleDrop files = Some file →
       ∃ pre post,
         files = pre ++ file :: post
         ∧ (FileUpload.file_type file = "application/json"
            ∨ ∃ stem, FileUpload.file_name file = stem +:+ ".json")
         ∧ FileUpload.handleDrop pre = None)
  ∧ FileUpload.handleDrop [] = None
  ∧ FileUpload.handleFileSelect (Some files) = head files
  ∧ FileUpload.handleFileSelect None = None.
Proof.
  assert (Hnot : ∀ file, FileUpload.isJsonFile file = false
                 ↔ FileUpload.file_type file ≠ "application/json"
                   ∧ ∀ stem, FileUpload.file_name file ≠ stem +:+ ".json").
  { intros file. pose proof (isJsonFile_spec file) as Hspec.
    destruct (FileUpload.isJsonFile file); split; try done.
    - intros [Hty Hname]. destruct Hspec as [[H|[stem H]] _]; [done|done|].
      by destruct (Hname stem).
    - intros _. destruct Hspec as [_ Hback]. split.
      + intros H. assert (false = true) by (apply Hback; by left). done.
      + intros stem H. assert (false = true) by (apply Hback; right; by exists stem).
        done. }
  split; [|split; [|done]].
  - unfold FileUpload.handleDrop. induction files as [|f files IH]; simpl.
    + split; [|done]. intros _ file Hin. by apply elem_of_nil in Hin.
    + destruct (FileUpload.isJsonFile f) eqn:Hf.
      * split; [done|]. intros H. specialize (H f (list_elem_of_here _ _)).
        apply Hnot in H. congruence.
      * rewrite IH. split.
        -- intros H file [->|Hin]%elem_of_cons; [by apply Hnot|by apply H].
        -- intros H file Hin. apply H. by right.
  - unfold FileUpload.handleDrop. induction files as [|f files IH]; simpl; [done|].
    intros file. destruct (FileUpload.isJsonFile f) eqn:Hf.
    + intros [= <-]. exists [], files. split; [done|]. split; [|done].
      by apply isJsonFile_spec.
    + intros Hfile. destruct (IH file Hfile) as (pre & post & -> & Hjson & Hpre).
      exists (f :: pre), post. split; [done|]. split; [done|]. simpl. by rewrite Hf.
Qed.

(** ** The cards of the model list *)

Lemma categorizeModels_members ms :
  Forall (fun kc => GitHubService.models kc.2 = filter (inCategory kc.1) ms)
         (GitHubService.categorizeModels ms).
Proof.
  rewrite categorizeModels_eq. apply Forall_fmap, Forall_forall. by intros kc _.
Qed.

Lemma categorizeModels_keys_NoDup ms : NoDup (GitHubService.categorizeModels ms).*1.
Proof. rewrite categorizeModels_keys. apply NoDup_filter, tableKeys_NoDup. Qed.

(** X18. After a successful load, whatever categories are expanded and
    whatever is typed in the search box, the cards drawn are a subsequence
    of the catalog: no card is drawn twice and each card is a catalog entry,
    in catalog order. Right after the load, with no search term, the cards
    drawn are the catalog entries of the category of the first entry, that
    is, of the lowest range that has a model. *)
Theorem cards_from_catalog (files : list GitHubService.GitHubFile)
    (getModel : string → option GitHubService.ModelData) (st : ModelList.ListState)
    (expanded : gset string) (searchTerm : string) :
  let st' := ModelList.loadModels
               (Requests.getAllModelsWithMetadata (Requests.ListOk files) getModel) st in
  let catalog := ModelList.models st' in
  sublist (ModelList.cards (ModelList.categorizedModels st') expanded
             (ModelList.filteredModels catalog searchTerm) searchTerm)
          catalog
  ∧ ∀ first rest,
      catalog = first :: rest →
      ModelList.cards (ModelList.categorizedModels st') (ModelList.expandedCategories st')
        (ModelList.filteredModels catalog "") ""
      = filter (inCategory (GitHubService.categoryKey (mi_id first))) catalog.
Proof.
  intros st' catalog. subst st' catalog.
  cbn [Requests.getAllModelsWithMetadata Requests.getModelList].
  cbv zeta. cbn [ModelList.loadModels ModelList.models ModelList.categorizedModels
                 ModelList.expandedCategories].
  set (ms := JS.sort GitHubService.byId _).
  assert (Hsorted : StronglySorted (fun a b => (mi_id a ≤ mi_id b)%Z) ms)
    by apply (sort_sorted mi_id).
  destruct (categorizeModels_sorted ms Hsorted) as [Hjoin Hhead].
  pose proof (categorizeModels_members ms) as Hmembers.
  pose proof (categorizeModels_keys_NoDup ms) as Hnodup.
  split.
  - unfold ModelList.cards. destruct (negb _).
    + unfold ModelList.filteredModels.
      destruct (String.eqb searchTerm ""); [done|apply sublist_filter].
    + rewrite <- Hjoin at 2. apply sublist_join_Forall2, Forall2_fmap.
      apply Forall_Forall2_diag, Forall_forall. intros kc _.
      case_bool_decide; [done|apply sublist_nil_l].
  - intros first rest Hms. unfold ModelList.cards. cbn [String.eqb negb].
    assert (Hfirst : head ms = Some first) by (by rewrite Hms).
    rewrite Hfirst in Hhead. cbn [fmap option_fmap option_map] in Hhead.
    destruct (GitHubService.categorizeModels ms) as [|[key0 cat0] cats]; [done|].
    injection Hhead as ->. cbn [fmap list_fmap fst] in Hnodup |- *.
    apply NoDup_cons in Hnodup as [Hfresh _].
    apply Forall_cons in Hmembers as [Hcat0 _]. cbn [fst snd] in Hcat0.
    cbn [mjoin list_join fst snd]. rewrite bool_decide_true by set_solver.
    rewrite Hcat0.
    match goal with
    | |- _ ++ ?others = _ => assert (Hrest : others = [])
    end.
    { clear -Hfresh. induction cats as [|kc cats IH]; [done|].
      rewrite fmap_cons, not_elem_of_cons in Hfresh. destruct Hfresh as [Hne Hfresh].
      csimpl. rewrite bool_decide_false by set_solver. by apply IH. }
    by rewrite Hrest, app_nil_r.
Qed.
